(** * lpss_info: the LPSS network monitor (src/src/main.cpp)

    A shallow embedding of the monitor's shared state ([MonitorState]), of the
    two listener bodies ([task_nodes], [task_topics]), of the graph export
    ([generate_graph]) and of the console commands of [main], followed by the
    properties of the topology store that the specification states. *)

From Stdlib Require Import List ZArith Bool Lia Ascii String Permutation Sorted.
From Stdlib Require OrderedTypeEx.
Import ListNotations.

Local Open Scope string_scope.
Local Open Scope Z_scope.
Local Open Scope list_scope.

Set Implicit Arguments.

(** ** std::unordered_map<uint64_t, V>

    The container is a list of key/value pairs with pairwise distinct keys;
    the list order is the container's iteration order.  The C++ standard
    leaves the position of a freshly inserted key (and, after a rehash, of the
    old ones) unspecified, so that choice is an interface, [HashOrder]: the
    only thing known about an insertion is that the new contents are the old
    ones plus the new pair, in some order. *)
Module UMap.

Definition t (V : Type) := list (Z * V).

Definition empty {V : Type} : t V := [].

Definition keys {V : Type} (m : t V) : list Z := map fst m.

(** [m.find(k)], as the mapped value when the key is present. *)
Fixpoint find {V : Type} (k : Z) (m : t V) : option V :=
  match m with
  | [] => None
  | (k', v) :: m' => if Z.eqb k k' then Some v else find k m'
  end.

(** [m.count(k)]: 0 or 1. *)
Definition count {V : Type} (k : Z) (m : t V) : nat :=
  match find k m with Some _ => 1%nat | None => 0%nat end.

(** Writing through the reference to the value stored under [k]: the pair
    keeps its place in the iteration order. *)
Fixpoint store {V : Type} (k : Z) (v : V) (m : t V) : t V :=
  match m with
  | [] => []
  | (k', v') :: m' =>
      if Z.eqb k k' then (k', v) :: m' else (k', v') :: store k v m'
  end.

Class HashOrder := {
  place : forall V : Type, Z -> V -> t V -> t V;
  place_perm : forall (V : Type) (k : Z) (v : V) (m : t V),
      Permutation (place k v m) ((k, v) :: m)
}.

(** One possible hash order: a new key goes to the end. *)
#[refine] Instance append_order : HashOrder :=
  {| place := fun V k v m => m ++ [(k, v)] |}.
Proof.
  intros V k v m. apply Permutation_sym, Permutation_cons_append.
Defined.

(** [m[k]]: the value under [k]; an absent key is first inserted with the
    value-initialised [dflt].  Returns the value and the container. *)
Definition subscript `{HashOrder} {V : Type} (dflt : V) (k : Z) (m : t V)
  : V * t V :=
  match find k m with
  | Some v => (v, m)
  | None => (dflt, place k dflt m)
  end.

(** [m[k] = v]. *)
Definition assign `{HashOrder} {V : Type} (dflt : V) (k : Z) (v : V)
  (m : t V) : t V :=
  store k v (snd (subscript dflt k m)).

Definition wf {V : Type} (m : t V) : Prop := NoDup (keys m).

End UMap.

(** ** The data model *)

(** The [full] member of rmvl's [Guid], an unsigned 64-bit integer. *)
Record Guid := { full : Z }.

Record EndpointInfo := {
  topic : string;
  is_pub : bool
}.

(** The two containers of [MonitorState].  The mutex is the [mtx] field of
    the configurations further down; [running] only bounds the loops. *)
Record MonitorState := {
  nodes : UMap.t string;
  topics : UMap.t (list EndpointInfo)
}.

Definition initial_state : MonitorState :=
  {| nodes := UMap.empty; topics := UMap.empty |}.

Definition get_prefix (g : Guid) : Z := Z.land (full g) 0xFFFFFFFFFFFF.

(** The members of rmvl's [RNDPMessage] that the monitor reads. *)
Record RNDPMessage := {
  guid : Guid;
  name : string
}.

(** [REDPMessage::Type]; the monitor only tests for [Writer]. *)
Inductive REDPType := Writer | Reader.

Definition REDPType_eqb (a b : REDPType) : bool :=
  match a, b with
  | Writer, Writer | Reader, Reader => true
  | _, _ => false
  end.

Record REDPMessage := {
  endpoint_guid : Guid;
  msg_topic : string;
  type : REDPType
}.

(** ** std::set<std::string>

    The set is kept as the list of its elements in iteration order, which is
    ascending by [std::less<std::string>]: bytes compared as unsigned values,
    a proper prefix before its extensions.  Two strings neither of which is
    less than the other are the same element. *)
Module StrSet.

Definition t := list string.

Definition empty : t := [].

Fixpoint insert (x : string) (s : t) : t :=
  match s with
  | [] => [x]
  | y :: s' =>
      if String.ltb x y then x :: s
      else if String.ltb y x then y :: insert x s'
      else s
  end.

Definition lt (a b : string) : Prop := String.ltb a b = true.

End StrSet.

(** ** Text output *)

Definition dquote : string := String "034"%char EmptyString.
Definition newline : string := String "010"%char EmptyString.

(** What [%s] prints for [s.c_str()]: the bytes before the first NUL. *)
Fixpoint c_str (s : string) : string :=
  match s with
  | EmptyString => EmptyString
  | String c s' => if Ascii.eqb c "000"%char then EmptyString else String c (c_str s')
  end.

Definition hex_digit (d : Z) : ascii :=
  match String.get (Z.to_nat d) "0123456789abcdef" with
  | Some c => c
  | None => "0"%char
  end.

Fixpoint hex_digits (fuel : nat) (n : Z) (acc : string) : string :=
  match fuel with
  | O => acc
  | S fuel' =>
      if n <? 16 then String (hex_digit n) acc
      else hex_digits fuel' (n / 16) (String (hex_digit (n mod 16)) acc)
  end.

(** What [%lx] prints for an unsigned 64-bit value: at most 16 digits. *)
Definition fmt_lx (n : Z) : string := hex_digits 16 n EmptyString.

(** A vertex of the exported graph and the identifier it is printed with:
    [n%lx] for a node, ["t_%s"] (quoted) for a topic. *)
Inductive Vertex :=
| NodeV (prefix : Z)
| TopicV (t : string).

Definition vertex_id (v : Vertex) : string :=
  match v with
  | NodeV prefix => ("n" ++ fmt_lx prefix)%string
  | TopicV t => (dquote ++ "t_" ++ c_str t ++ dquote)%string
  end.

(** One [fprintf] call of [generate_graph]. *)
Inductive DotLine :=
| Header
| TopicDecl (t : string)
| NodeDecl (prefix : Z) (label : string)
| Edge (src dst : Vertex) (color label : string)
| Footer.

Definition print_line (l : DotLine) : string :=
  match l with
  | Header =>
      ("digraph G {" ++ newline ++
       "  rankdir=LR;" ++ newline ++
       "  node [fontname=" ++ dquote ++ "sans-serif" ++ dquote ++
       ", fontsize=10];" ++ newline ++ newline)%string
  | TopicDecl t =>
      ("  " ++ vertex_id (TopicV t) ++ " [label=" ++ dquote ++ c_str t ++ dquote ++
       ", shape=ellipse, style=filled, fillcolor=lightyellow];" ++ newline)%string
  | NodeDecl prefix label =>
      ("  " ++ vertex_id (NodeV prefix) ++ " [label=" ++ dquote ++ c_str label ++ dquote ++
       ", shape=box, style=filled, fillcolor=lightblue];" ++ newline)%string
  | Edge src dst color label =>
      ("  " ++ vertex_id src ++ " -> " ++ vertex_id dst ++ " [color=" ++ color ++
       ", label=" ++ dquote ++ label ++ dquote ++ "];" ++ newline)%string
  | Footer => ("}" ++ newline)%string
  end.

Definition print_lines (ls : list DotLine) : string :=
  fold_right (fun l acc => (print_line l ++ acc)%string) EmptyString ls.

(** The shell command handed to [system] after the file is closed. *)
Definition rasterizer_command : string :=
  "dot -Tpng lpss_graph.dot -o lpss_graph.png && xdg-open lpss_graph.png > /dev/null 2>&1 &".

(** What one operation did besides returning: the store it leaves, the text
    written to lpss_graph.dot when the file was written, the commands handed
    to [system], and the [printf] outputs in order. *)
Record Outcome := {
  out_state : MonitorState;
  out_file : option string;
  out_system : list string;
  out_stdout : list string
}.

(** ** The monitor's operations *)
Section Monitor.

Context {order : UMap.HashOrder}.

(** rmvl's decoders, which the repository only calls. *)
Variable RNDP_deserialize : string -> RNDPMessage.
Variable REDP_deserialize : string -> REDPMessage.

(** *** task_nodes *)

(** The critical section of [task_nodes]:
    [state->nodes[get_prefix(msg.guid)] = msg.name]. *)
Definition node_upsert (msg : RNDPMessage) (st : MonitorState) : MonitorState :=
  {| nodes := UMap.assign EmptyString (get_prefix (guid msg)) (name msg) (nodes st);
     topics := topics st |}.

(** [data.size() >= 14 && data[0] == tag]. *)
Definition accepts (tag : ascii) (data : string) : bool :=
  (14 <=? Z.of_nat (String.length data)) &&
  match String.get 0 data with
  | Some c => Ascii.eqb c tag
  | None => false
  end.

(** One turn of the loop of [task_nodes] on the datagram just read. *)
Definition task_nodes_step (data : string) (st : MonitorState) : MonitorState :=
  if accepts "N"%char data
  then node_upsert (RNDP_deserialize data) st
  else st.

(** The loop of [task_nodes] over the datagrams read while [running]. *)
Definition task_nodes (inbox : list string) (st : MonitorState) : MonitorState :=
  fold_left (fun s data => task_nodes_step data s) inbox st.

(** *** task_topics *)

(** The scan [for (auto &ep : list) if (...) exists = true;]. *)
Definition scan_exists (tp : string) (pub : bool) (l : list EndpointInfo) : bool :=
  fold_left
    (fun found ep =>
       if String.eqb (topic ep) tp && Bool.eqb (is_pub ep) pub then true else found)
    l false.

(** The critical section of [task_topics]. *)
Definition endpoint_upsert (msg : REDPMessage) (st : MonitorState) : MonitorState :=
  let prefix := get_prefix (endpoint_guid msg) in
  let '(l, topics1) := UMap.subscript [] prefix (topics st) in
  let pub := REDPType_eqb (type msg) Writer in
  let found := scan_exists (msg_topic msg) pub l in
  if negb found
  then {| nodes := nodes st;
          topics := UMap.store prefix
                      (l ++ [{| topic := msg_topic msg; is_pub := pub |}]) topics1 |}
  else {| nodes := nodes st; topics := topics1 |}.

Definition task_topics_step (data : string) (st : MonitorState) : MonitorState :=
  if accepts "E"%char data
  then endpoint_upsert (REDP_deserialize data) st
  else st.

Definition task_topics (inbox : list string) (st : MonitorState) : MonitorState :=
  fold_left (fun s data => task_topics_step data s) inbox st.

(** *** generate_graph *)

(** The first pass: every topic of every endpoint list into [all_topics]. *)
Definition all_topics (tps : UMap.t (list EndpointInfo)) : StrSet.t :=
  fold_left
    (fun acc pair => fold_left (fun acc' ep => StrSet.insert (topic ep) acc') (snd pair) acc)
    tps StrSet.empty.

(** The edge printed for one endpoint record of the node [prefix]. *)
Definition edge_line (prefix : Z) (ep : EndpointInfo) : DotLine :=
  if is_pub ep
  then Edge (NodeV prefix) (TopicV (topic ep)) "blue" "pub"
  else Edge (TopicV (topic ep)) (NodeV prefix) "darkgreen" "sub".

(** The body of the loop over [state.nodes] for one entry.  [topics] is
    threaded through because [operator[]] may write to it. *)
Definition node_lines (prefix : Z) (nm : string) (tps : UMap.t (list EndpointInfo))
  : list DotLine * UMap.t (list EndpointInfo) :=
  if (0 <? UMap.count prefix tps)%nat
  then let '(eps, tps1) := UMap.subscript [] prefix tps in
       (NodeDecl prefix nm :: map (edge_line prefix) eps, tps1)
  else ([NodeDecl prefix nm], tps).

Fixpoint nodes_loop (ns : list (Z * string)) (tps : UMap.t (list EndpointInfo))
  : list DotLine * UMap.t (list EndpointInfo) :=
  match ns with
  | [] => ([], tps)
  | (prefix, nm) :: ns' =>
      let '(here, tps1) := node_lines prefix nm tps in
      let '(rest, tps2) := nodes_loop ns' tps1 in
      (here ++ rest, tps2)
  end.

(** The [fprintf] calls of one export, in order, and the store afterwards. *)
Definition graph_lines (st : MonitorState) : list DotLine * MonitorState :=
  let decls := map TopicDecl (all_topics (topics st)) in
  let '(body, tps) := nodes_loop (nodes st) (topics st) in
  (Header :: decls ++ body ++ [Footer], {| nodes := nodes st; topics := tps |}).

(** [generate_graph]; [fopen_ok] tells whether [fopen] returned a stream. *)
Definition generate_graph (fopen_ok : bool) (st : MonitorState) : Outcome :=
  if negb fopen_ok
  then {| out_state := st; out_file := None; out_system := []; out_stdout := [] |}
  else
    let '(ls, st') := graph_lines st in
    {| out_state := st';
       out_file := Some (print_lines ls);
       out_system := [rasterizer_command];
       out_stdout := [] |}.

(** *** The console commands of main *)

Definition list_line (nm : string) : string :=
  ("- " ++ c_str nm ++ newline)%string.

Definition info_line (ep : EndpointInfo) : string :=
  ("  [" ++ (if is_pub ep then "PUB" else "SUB") ++ "] " ++ c_str (topic ep)
   ++ newline)%string.

(** The loop of the [info] branch: the records printed, in order, and
    [topics] afterwards.  [arg] is the token [sscanf] stored. *)
Fixpoint info_loop (arg : string) (ns : list (Z * string))
  (tps : UMap.t (list EndpointInfo))
  : list EndpointInfo * UMap.t (list EndpointInfo) :=
  match ns with
  | [] => ([], tps)
  | (p, nm) :: ns' =>
      if String.eqb nm arg
      then let '(eps, tps1) := UMap.subscript [] p tps in
           let '(rest, tps2) := info_loop arg ns' tps1 in
           (eps ++ rest, tps2)
      else info_loop arg ns' tps
  end.

(** The [info] branch, for the string [arg] that the scan left in the
    second buffer: a token of at most 63 bytes. *)
Definition info_cmd (arg : string) (st : MonitorState) : Outcome :=
  let '(printed, tps) := info_loop arg (nodes st) (topics st) in
  {| out_state := {| nodes := nodes st; topics := tps |};
     out_file := None;
     out_system := [];
     out_stdout := map info_line printed |}.

Definition list_cmd (st : MonitorState) : Outcome :=
  {| out_state := st;
     out_file := None;
     out_system := [];
     out_stdout := map (fun pair => list_line (snd pair)) (nodes st) |}.

Definition no_effect (st : MonitorState) : Outcome :=
  {| out_state := st; out_file := None; out_system := []; out_stdout := [] |}.

(** One line of input after [sscanf(buf, "%s %s", cmd, arg)] returned [n]:
    [None] leaves the loop ([quit]), [Some o] goes round again.  [cmd] and
    [arg] are the contents of the two 64-byte buffers, so the dispatch is
    that of the program only for strings that [sscanf] can have left there;
    [console_turn] further down puts the scan in front of it. *)
Definition command (fopen_ok : bool) (n : Z) (cmd arg : string) (st : MonitorState)
  : option Outcome :=
  if n <=? 0 then Some (no_effect st)
  else if String.eqb cmd "list" then Some (list_cmd st)
  else if String.eqb cmd "info" && (n =? 2) then Some (info_cmd arg st)
  else if String.eqb cmd "graph" then Some (generate_graph fopen_ok st)
  else if String.eqb cmd "quit" then None
  else Some (no_effect st).

(** *** The two listeners running concurrently

    Each listener is a small automaton over the statements of its loop;
    a configuration holds the shared store, the mutex and, per listener,
    its position and the datagrams it has yet to read.  [list] in
    [task_topics] is a reference into the store, so the scan reads the
    store again at every iteration. *)

Inductive Tid := NodeListener | EndpointListener.

Inductive NodePc :=
| NRead                          (* sock.read(), the size and tag test, deserialize *)
| NLock (msg : RNDPMessage)      (* lock_guard constructor *)
| NWrite (msg : RNDPMessage)     (* nodes[prefix] = msg.name *)
| NUnlock.                       (* lock_guard destructor *)

Inductive EndpointPc :=
| ERead
| ELock (msg : REDPMessage)
| ELookup (msg : REDPMessage)                       (* auto &list = topics[prefix] *)
| EScan (msg : REDPMessage) (i : nat) (found : bool) (* one iteration of the for *)
| EAppend (msg : REDPMessage) (found : bool)        (* if (!exists) push_back *)
| EUnlock.

Record Config := {
  store : MonitorState;
  mtx : option Tid;
  node_pc : NodePc;
  node_inbox : list string;
  ep_pc : EndpointPc;
  ep_inbox : list string
}.

Definition start (st : MonitorState) (node_in ep_in : list string) : Config :=
  {| store := st; mtx := None;
     node_pc := NRead; node_inbox := node_in;
     ep_pc := ERead; ep_inbox := ep_in |}.

(** The next statement of [task_nodes]; a listener waiting for the mutex or
    with nothing left to read stays where it is. *)
Definition node_step (c : Config) : Config :=
  match node_pc c with
  | NRead =>
      match node_inbox c with
      | [] => c
      | data :: rest =>
          {| store := store c; mtx := mtx c;
             node_pc := if accepts "N"%char data
                        then NLock (RNDP_deserialize data) else NRead;
             node_inbox := rest;
             ep_pc := ep_pc c; ep_inbox := ep_inbox c |}
      end
  | NLock msg =>
      match mtx c with
      | None =>
          {| store := store c; mtx := Some NodeListener;
             node_pc := NWrite msg; node_inbox := node_inbox c;
             ep_pc := ep_pc c; ep_inbox := ep_inbox c |}
      | Some _ => c
      end
  | NWrite msg =>
      {| store := node_upsert msg (store c); mtx := mtx c;
         node_pc := NUnlock; node_inbox := node_inbox c;
         ep_pc := ep_pc c; ep_inbox := ep_inbox c |}
  | NUnlock =>
      {| store := store c; mtx := None;
         node_pc := NRead; node_inbox := node_inbox c;
         ep_pc := ep_pc c; ep_inbox := ep_inbox c |}
  end.

Definition set_ep (c : Config) (st : MonitorState) (m : option Tid)
  (pc : EndpointPc) (inbox : list string) : Config :=
  {| store := st; mtx := m;
     node_pc := node_pc c; node_inbox := node_inbox c;
     ep_pc := pc; ep_inbox := inbox |}.

(** The list [list] refers to: the one stored under the prefix right now. *)
Definition list_ref (msg : REDPMessage) (st : MonitorState) : list EndpointInfo :=
  match UMap.find (get_prefix (endpoint_guid msg)) (topics st) with
  | Some l => l
  | None => []
  end.

Definition pub_of (msg : REDPMessage) : bool := REDPType_eqb (type msg) Writer.

(** The next statement of [task_topics]. *)
Definition endpoint_step (c : Config) : Config :=
  match ep_pc c with
  | ERead =>
      match ep_inbox c with
      | [] => c
      | data :: rest =>
          set_ep c (store c) (mtx c)
            (if accepts "E"%char data then ELock (REDP_deserialize data) else ERead)
            rest
      end
  | ELock msg =>
      match mtx c with
      | None => set_ep c (store c) (Some EndpointListener) (ELookup msg) (ep_inbox c)
      | Some _ => c
      end
  | ELookup msg =>
      let tps := snd (UMap.subscript [] (get_prefix (endpoint_guid msg))
                        (topics (store c))) in
      set_ep c {| nodes := nodes (store c); topics := tps |} (mtx c)
        (EScan msg 0 false) (ep_inbox c)
  | EScan msg i found =>
      match nth_error (list_ref msg (store c)) i with
      | Some ep =>
          set_ep c (store c) (mtx c)
            (EScan msg (S i)
               (if String.eqb (topic ep) (msg_topic msg) && Bool.eqb (is_pub ep) (pub_of msg)
                then true else found))
            (ep_inbox c)
      | None => set_ep c (store c) (mtx c) (EAppend msg found) (ep_inbox c)
      end
  | EAppend msg found =>
      let st :=
        if negb found
        then {| nodes := nodes (store c);
                topics := UMap.store (get_prefix (endpoint_guid msg))
                            (list_ref msg (store c) ++
                             [{| topic := msg_topic msg; is_pub := pub_of msg |}])
                            (topics (store c)) |}
        else store c in
      set_ep c st (mtx c) EUnlock (ep_inbox c)
  | EUnlock => set_ep c (store c) None ERead (ep_inbox c)
  end.

Definition step (t : Tid) (c : Config) : Config :=
  match t with
  | NodeListener => node_step c
  | EndpointListener => endpoint_step c
  end.

(** An interleaving is the order in which the scheduler lets the two
    listeners execute their statements. *)
Definition run (sched : list Tid) (c : Config) : Config :=
  fold_left (fun c' t => step t c') sched c.

(** Both listeners are back at [read] with nothing left to read. *)
Definition finished (c : Config) : bool :=
  match node_pc c, node_inbox c, ep_pc c, ep_inbox c with
  | NRead, [], ERead, [] => true
  | _, _, _, _ => false
  end.

Definition node_in_cs (c : Config) : bool :=
  match node_pc c with NWrite _ | NUnlock => true | _ => false end.

Definition ep_in_cs (c : Config) : bool :=
  match ep_pc c with
  | ELookup _ | EScan _ _ _ | EAppend _ _ | EUnlock => true
  | _ => false
  end.

End Monitor.

(** ** Sequences of decoded announcements and what they announce *)
Section Announcements.

Context {order : UMap.HashOrder}.

(** The critical section of [task_nodes] once per announcement, in order. *)
Definition node_announcements (msgs : list RNDPMessage) (st : MonitorState)
  : MonitorState :=
  fold_left (fun s m => node_upsert m s) msgs st.

Definition endpoint_announcements (msgs : list REDPMessage) (st : MonitorState)
  : MonitorState :=
  fold_left (fun s m => endpoint_upsert m s) msgs st.

End Announcements.

(** The name carried by the latest announcement of [msgs] whose guid masks to
    [p], if there is one. *)
Definition last_name (p : Z) (msgs : list RNDPMessage) : option string :=
  match filter (fun m => Z.eqb (get_prefix (guid m)) p) (rev msgs) with
  | m :: _ => Some (name m)
  | [] => None
  end.

(** [m] announces the record [ep] for the prefix [p]. *)
Definition announces (p : Z) (ep : EndpointInfo) (m : REDPMessage) : Prop :=
  get_prefix (endpoint_guid m) = p /\ msg_topic m = topic ep /\ pub_of m = is_pub ep.

Definition announced (p : Z) (ep : EndpointInfo) (msgs : list REDPMessage) : Prop :=
  exists m, In m msgs /\ announces p ep m.

(** The endpoint list kept for [p]; a prefix without one has no records. *)
Definition endpoints_of (p : Z) (st : MonitorState) : list EndpointInfo :=
  match UMap.find p (topics st) with
  | Some l => l
  | None => []
  end.

(** The lines of the export that are about the node vertex of [p]. *)
Definition about_node (p : Z) (l : DotLine) : Prop :=
  match l with
  | NodeDecl q _ => q = p
  | Edge src dst _ _ => src = NodeV p \/ dst = NodeV p
  | _ => False
  end.

Definition is_topic_decl (l : DotLine) : Prop :=
  match l with
  | TopicDecl _ => True
  | _ => False
  end.

(** The topic names that occur in some endpoint list of the store. *)
Definition topic_in_store (t : string) (st : MonitorState) : Prop :=
  exists p l ep, In (p, l) (topics st) /\ In ep l /\ topic ep = t.

(** [ep] is the record (tp, pub). *)
Definition same_record (tp : string) (pub : bool) (ep : EndpointInfo) : bool :=
  String.eqb (topic ep) tp && Bool.eqb (is_pub ep) pub.

(** The list the critical section leaves under the prefix of [m]. *)
Definition upserted (m : REDPMessage) (l : list EndpointInfo) : list EndpointInfo :=
  if scan_exists (msg_topic m) (pub_of m) l
  then l
  else l ++ [{| topic := msg_topic m; is_pub := pub_of m |}].

(** What holds of the endpoint mapping after the announcements [msgs]. *)
Definition topics_inv (msgs : list REDPMessage) (st : MonitorState) : Prop :=
  UMap.wf (topics st) /\
  forall p, NoDup (endpoints_of p st) /\
            (forall ep, In ep (endpoints_of p st) <-> announced p ep msgs) /\
            (UMap.find p (topics st) = None <->
             forall m, In m msgs -> get_prefix (endpoint_guid m) <> p).

(** The lines one entry of [nodes] contributes to the export: its box, then
    one edge per record of its endpoint list. *)
Definition node_block (st : MonitorState) (entry : Z * string) : list DotLine :=
  NodeDecl (fst entry) (snd entry)
  :: map (edge_line (fst entry)) (endpoints_of (fst entry) st).

(** The records [info arg] prints for one entry of [nodes]: its endpoint
    list when the display name is [arg], nothing otherwise. *)
Definition records_if_named (arg : string) (st : MonitorState) (entry : Z * string)
  : list EndpointInfo :=
  if String.eqb (snd entry) arg then endpoints_of (fst entry) st else [].

(** Some entry of [ns] has the key [q] and the display name [arg]. *)
Definition named (arg : string) (q : Z) (ns : list (Z * string)) : bool :=
  existsb (fun entry => String.eqb (snd entry) arg && Z.eqb (fst entry) q) ns.

(** A datagram a listener expecting [tag] discards: fewer than 14 bytes, or
    a first byte other than [tag]. *)
Definition malformed (tag : ascii) (data : string) : Prop :=
  (String.length data < 14)%nat \/ String.get 0 data <> Some tag.

(** *** What a listener still has ahead of it

    The store a listener would leave if it ran alone from where it stands:
    first the announcement it is working at, then the datagrams it has not
    read yet.  The node listener reads and writes [nodes] only, the endpoint
    listener [topics] only, so each is followed on its own mapping. *)

Definition on_nodes (ns : UMap.t string) : MonitorState :=
  {| nodes := ns; topics := UMap.empty |}.

Definition on_topics (tps : UMap.t (list EndpointInfo)) : MonitorState :=
  {| nodes := UMap.empty; topics := tps |}.

Definition node_pending {order : UMap.HashOrder} (pc : NodePc) (st : MonitorState)
  : MonitorState :=
  match pc with
  | NLock msg | NWrite msg => node_upsert msg st
  | NRead | NUnlock => st
  end.

(** [if (!exists) list.push_back(...)] with [exists] already computed. *)
Definition append_if_absent (msg : REDPMessage) (found : bool) (st : MonitorState)
  : MonitorState :=
  if negb found
  then {| nodes := nodes st;
          topics := UMap.store (get_prefix (endpoint_guid msg))
                      (list_ref msg st ++
                       [{| topic := msg_topic msg; is_pub := pub_of msg |}])
                      (topics st) |}
  else st.

(** The rest of the scan from index [i] on, then the append. *)
Definition finish_scan (msg : REDPMessage) (i : nat) (found : bool) (st : MonitorState)
  : MonitorState :=
  append_if_absent msg
    (fold_left
       (fun found' ep =>
          if String.eqb (topic ep) (msg_topic msg) && Bool.eqb (is_pub ep) (pub_of msg)
          then true else found')
       (skipn i (list_ref msg st)) found)
    st.

Definition ep_pending {order : UMap.HashOrder} (pc : EndpointPc) (st : MonitorState)
  : MonitorState :=
  match pc with
  | ELock msg | ELookup msg => endpoint_upsert msg st
  | EScan msg i found => finish_scan msg i found st
  | EAppend msg found => append_if_absent msg found st
  | ERead | EUnlock => st
  end.

Definition nodes_ahead {order : UMap.HashOrder} (RNDP_deserialize : string -> RNDPMessage)
  (c : Config) : UMap.t string :=
  nodes (task_nodes RNDP_deserialize (node_inbox c)
           (node_pending (node_pc c) (on_nodes (nodes (store c))))).

Definition topics_ahead {order : UMap.HashOrder} (REDP_deserialize : string -> REDPMessage)
  (c : Config) : UMap.t (list EndpointInfo) :=
  topics (task_topics REDP_deserialize (ep_inbox c)
            (ep_pending (ep_pc c) (on_topics (topics (store c))))).

(** The mutex is held by exactly the listener that is inside its critical
    section, and by nobody when neither is. *)
Definition lock_inv (c : Config) : Prop :=
  match mtx c with
  | None => node_in_cs c = false /\ ep_in_cs c = false
  | Some NodeListener => node_in_cs c = true /\ ep_in_cs c = false
  | Some EndpointListener => node_in_cs c = false /\ ep_in_cs c = true
  end.

(** Both containers have pairwise distinct keys. *)
Definition store_wf (st : MonitorState) : Prop :=
  UMap.wf (nodes st) /\ UMap.wf (topics st).

(** *** Stores used as concrete inputs *)

Definition mk_guid (z : Z) : Guid := {| full := z |}.

(** An endpoint announcement was seen for 0xAA, a node announcement never. *)
Definition orphan_state : MonitorState :=
  {| nodes := [];
     topics := [(0xAA, [{| topic := "imu"; is_pub := true |}])] |}.

(** Two nodes announce the same display name. *)
Definition twins_state : MonitorState :=
  {| nodes := [(0xAA, "cam"); (0xBB, "cam")];
     topics := [(0xAA, [{| topic := "left"; is_pub := true |}]);
                (0xBB, [{| topic := "right"; is_pub := true |}])] |}.

(** A node is known, none of its endpoints is. *)
Definition silent_state : MonitorState :=
  {| nodes := [(0xAA, "sensor1")]; topics := [] |}.

(** A node that publishes one topic and subscribes to another. *)
Definition sensor_state : MonitorState :=
  {| nodes := [(0xAA, "sensor1")];
     topics := [(0xAA, [{| topic := "imu"; is_pub := true |};
                        {| topic := "cmd"; is_pub := false |}])] |}.

(** ** get_local_ip

    [getifaddrs] hands back a linked list; an entry carries the interface
    name and, when the interface has one, a socket address, of which the
    function reads the family and, for [AF_INET], the four bytes of
    [sin_addr.s_addr] in memory order. *)

Definition AF_INET : Z := 2.

Definition ip4 : Type := (Z * Z * Z * Z)%type.

Record sockaddr := {
  sa_family : Z;
  s_addr : ip4
}.

Record ifaddrs := {
  ifa_name : string;
  ifa_addr : option sockaddr
}.

(** The loop over the list from the entry [ifa] on; [res] is the array as
    initialised. *)
Fixpoint get_local_ip_from (ifa : list ifaddrs) (res : ip4) : ip4 :=
  match ifa with
  | [] => res
  | p :: ifa_next =>
      match ifa_addr p with
      | Some a =>
          if (sa_family a =? AF_INET) && negb (String.eqb (ifa_name p) "lo")
          then s_addr a
          else get_local_ip_from ifa_next res
      | None => get_local_ip_from ifa_next res
      end
  end.

Definition get_local_ip (ifa : list ifaddrs) : ip4 :=
  get_local_ip_from ifa (0, 0, 0, 0).

(** The test of the loop, on one entry. *)
Definition usable (p : ifaddrs) : bool :=
  match ifa_addr p with
  | Some a => (sa_family a =? AF_INET) && negb (String.eqb (ifa_name p) "lo")
  | None => false
  end.

(** ** The store over a whole run

    Every access to the store happens inside a [lock_guard] scope, so the
    store goes through the critical sections one at a time, in the order in
    which the mutex was granted: a datagram handled by one of the listeners,
    or a line handled by the console.  [quit] ends the run. *)

Inductive Event :=
| NodeDatagram (data : string)
| EndpointDatagram (data : string)
| ConsoleLine (fopen_ok : bool) (n : Z) (cmd arg : string).

Section Run.

Context {order : UMap.HashOrder}.
Variable RNDP_deserialize : string -> RNDPMessage.
Variable REDP_deserialize : string -> REDPMessage.

Definition handle (e : Event) (st : MonitorState) : option Outcome :=
  match e with
  | NodeDatagram data => Some (no_effect (task_nodes_step RNDP_deserialize data st))
  | EndpointDatagram data => Some (no_effect (task_topics_step REDP_deserialize data st))
  | ConsoleLine fopen_ok n cmd arg => command fopen_ok n cmd arg st
  end.

(** What each event did, in order, and the store at the end. *)
Fixpoint session (es : list Event) (st : MonitorState) : list Outcome * MonitorState :=
  match es with
  | [] => ([], st)
  | e :: es' =>
      match handle e st with
      | None => ([], st)
      | Some o =>
          let '(os, st') := session es' (out_state o) in
          (o :: os, st')
      end
  end.

End Run.

Definition is_datagram (e : Event) : bool :=
  match e with
  | ConsoleLine _ _ _ _ => false
  | _ => true
  end.

(** The line makes the console leave its loop. *)
Definition quits (e : Event) : bool :=
  match e with
  | ConsoleLine _ n cmd arg =>
      negb (n <=? 0) && negb (String.eqb cmd "list")
      && negb (String.eqb cmd "info" && (n =? 2))
      && negb (String.eqb cmd "graph") && String.eqb cmd "quit"
  | _ => false
  end.

(** What an operation lets the outside see. *)
Definition visible (o : Outcome) : option string * list string * list string :=
  (out_file o, out_system o, out_stdout o).

(** Two stores that no command can tell apart: the same node mapping, entry
    by entry and in the same order, and the same endpoint list for every
    prefix, a missing list counting as an empty one. *)
Definition same_view (a b : MonitorState) : Prop :=
  nodes a = nodes b /\ forall p, endpoints_of p a = endpoints_of p b.

(** [l] is [l'] with further elements behind it. *)
Definition extends {A : Type} (l' l : list A) : Prop :=
  exists tail, l' = l ++ tail.

(** The prefixes of a sequence of node announcements, each once. *)
Definition announced_prefixes (msgs : list RNDPMessage) : list Z :=
  nodup Z.eq_dec (map (fun m => get_prefix (guid m)) msgs).

(** The record an endpoint announcement stands for. *)
Definition record_of (m : REDPMessage) : EndpointInfo :=
  {| topic := msg_topic m; is_pub := pub_of m |}.

Definition EndpointInfo_eq_dec (a b : EndpointInfo) : {a = b} + {a <> b}.
Proof. decide equality; [apply Bool.bool_dec | apply string_dec]. Defined.

(** The elements of [l], each at the place of its first occurrence. *)
Definition first_occurrences (l : list EndpointInfo) : list EndpointInfo :=
  rev (nodup EndpointInfo_eq_dec (rev l)).

(** ** Reading a console line

    [sscanf(buf, "%s %s", cmd, arg)]: a [%s] skips white space and stores the
    following run of bytes that are not white space, with a NUL behind it;
    the blank of the format skips white space as well.  The result is the
    number of buffers filled, or [EOF] when the line ends before the first
    run.  [cmd] and [arg] have 64 bytes each and the format has no width, so
    a run of 64 bytes or more writes past its buffer: the scan has no
    defined result then. *)

(** [isspace] in the C locale. *)
Definition isspace (c : ascii) : bool :=
  Ascii.eqb c " "%char || Ascii.eqb c "009"%char || Ascii.eqb c "010"%char
  || Ascii.eqb c "011"%char || Ascii.eqb c "012"%char || Ascii.eqb c "013"%char.

Fixpoint skip_spaces (s : string) : string :=
  match s with
  | EmptyString => EmptyString
  | String c s' => if isspace c then skip_spaces s' else s
  end.

(** The run of bytes up to the next white space, and what follows it. *)
Fixpoint scan_token (s : string) : string * string :=
  match s with
  | EmptyString => (EmptyString, EmptyString)
  | String c s' =>
      if isspace c then (EmptyString, s)
      else let '(t, r) := scan_token s' in (String c t, r)
  end.

Definition EOF : Z := -1.

(** The scan of the line in [buf], with [cmd] and [arg] as they were before
    the call: the result and the two buffers after it, or [None] when a run
    does not fit. *)
Definition sscanf_ss (buf cmd arg : string) : option (Z * string * string) :=
  let '(t1, r1) := scan_token (skip_spaces (c_str buf)) in
  match t1 with
  | EmptyString => Some (EOF, cmd, arg)
  | String _ _ =>
      if (64 <=? String.length t1)%nat then None
      else
        let '(t2, r2) := scan_token (skip_spaces r1) in
        match t2 with
        | EmptyString => Some (1, t1, arg)
        | String _ _ =>
            if (64 <=? String.length t2)%nat then None
            else Some (2, t1, t2)
        end
  end.

(** One turn of the loop of [main] from the [sscanf] on, for the line that
    [fgets] has put into [buf]. *)
Inductive Turn :=
| Overflow                                         (* a run of 64 bytes or more *)
| Leave                                            (* quit *)
| Continue (cmd arg : string) (o : Outcome).       (* the buffers, what was done *)

Definition console_turn {order : UMap.HashOrder} (fopen_ok : bool)
  (buf cmd arg : string) (st : MonitorState) : Turn :=
  match sscanf_ss buf cmd arg with
  | None => Overflow
  | Some (n, cmd', arg') =>
      match command fopen_ok n cmd' arg' st with
      | None => Leave
      | Some o => Continue cmd' arg' o
      end
  end.

Fixpoint all_chars (f : ascii -> bool) (s : string) : bool :=
  match s with
  | EmptyString => true
  | String c s' => f c && all_chars f s'
  end.

Definition not_nul (c : ascii) : bool := negb (Ascii.eqb c "000"%char).

(** A byte that a [%s] stores. *)
Definition token_char (c : ascii) : bool := negb (isspace c) && not_nul c.

(** A string that a 64-byte buffer can hold. *)
Definition fits (s : string) : bool :=
  (String.length s <? 64)%nat && all_chars not_nul s.

(** What a [%s] can have stored in a 64-byte buffer: at least one byte, at
    most 63, none of them white space or NUL. *)
Definition is_token (s : string) : bool :=
  match s with
  | EmptyString => false
  | String _ _ => (String.length s <? 64)%nat && all_chars token_char s
  end.

(** What the scan can have left behind: nothing new when it returned [EOF],
    a token in [cmd] when it returned 1, a token in each buffer when it
    returned 2. *)
Definition scanned (n : Z) (cmd arg : string) : bool :=
  if n <=? 0 then fits cmd && fits arg
  else if n =? 1 then is_token cmd && fits arg
  else if n =? 2 then is_token cmd && is_token arg
  else false.

(** The console lines among the events are such scans. *)
Definition line_scanned (e : Event) : Prop :=
  match e with
  | ConsoleLine _ n cmd arg => scanned n cmd arg = true
  | _ => True
  end.

(** A node whose display name has a blank in it, and no endpoint list. *)
Definition blank_state : MonitorState :=
  {| nodes := [(0xAA, "my node")]; topics := [] |}.

(** ** Reading the export back *)

(** The vertex a line declares, if it declares one. *)
Definition declares (l : DotLine) : option Vertex :=
  match l with
  | TopicDecl t => Some (TopicV t)
  | NodeDecl prefix _ => Some (NodeV prefix)
  | _ => None
  end.

Definition declared (ls : list DotLine) : list Vertex :=
  flat_map (fun l => match declares l with Some v => [v] | None => [] end) ls.

(** Read from top to bottom with the vertices [seen] so far, no edge of [ls]
    names a vertex that has not been declared above it. *)
Fixpoint well_scoped (seen : list Vertex) (ls : list DotLine) : Prop :=
  match ls with
  | [] => True
  | Edge src dst _ _ :: rest =>
      In src seen /\ In dst seen /\ well_scoped seen rest
  | l :: rest =>
      well_scoped (match declares l with Some v => v :: seen | None => seen end) rest
  end.

(** The value of a hexadecimal digit and of a string of them. *)
Definition hex_digit_value (c : ascii) : Z :=
  match String.index 0 (String c EmptyString) "0123456789abcdef" with
  | Some i => Z.of_nat i
  | None => 0
  end.

Fixpoint hex_value (acc : Z) (s : string) : Z :=
  match s with
  | EmptyString => acc
  | String c s' => hex_value (16 * acc + hex_digit_value c) s'
  end.

(** * Properties *)

Unset Implicit Arguments.

(** ** The container *)
Module UMapFacts.
Section Facts.

Import UMap.
Context {order : HashOrder} {V : Type}.
Implicit Types (m : t V) (k : Z) (v : V).

Lemma find_none_iff k m : find k m = None <-> ~ In k (keys m).
Proof.
  induction m as [|[k' v'] m IH]; simpl.
  - tauto.
  - destruct (Z.eqb_spec k k') as [->|Hne].
    + split; [discriminate | intros H; exfalso; apply H; now left].
    + rewrite IH. split; intros H; [intros [E|E]; [congruence|tauto] | tauto].
Qed.

Lemma find_some_in k v m : find k m = Some v -> In (k, v) m.
Proof.
  induction m as [|[k' v'] m IH]; simpl; [discriminate|].
  destruct (Z.eqb_spec k k') as [->|Hne].
  - intros [= ->]. now left.
  - intros H. right. auto.
Qed.

Lemma in_keys k v m : In (k, v) m -> In k (keys m).
Proof. intros H. apply (in_map fst) in H. exact H. Qed.

Lemma in_find k v m : wf m -> In (k, v) m -> find k m = Some v.
Proof.
  unfold wf. induction m as [|[k' v'] m IH]; simpl; [tauto|].
  intros Hnd [E|Hin]; inversion Hnd as [|? ? Hnotin Hnd']; subst.
  - injection E as -> ->. now rewrite Z.eqb_refl.
  - destruct (Z.eqb_spec k k') as [->|Hne]; [|auto].
    exfalso. apply Hnotin. eapply in_keys; eauto.
Qed.

Lemma find_in_iff k v m : wf m -> find k m = Some v <-> In (k, v) m.
Proof. intros Hwf. split; [apply find_some_in | now apply in_find]. Qed.

Lemma wf_perm m m' : Permutation m m' -> wf m -> wf m'.
Proof.
  unfold wf, keys. intros HP. apply Permutation_NoDup. now apply Permutation_map.
Qed.

Lemma find_perm k m m' : wf m -> Permutation m m' -> find k m' = find k m.
Proof.
  intros Hwf HP. pose proof (wf_perm m m' HP Hwf) as Hwf'.
  destruct (find k m) as [v|] eqn:E.
  - apply in_find; [assumption|]. eapply Permutation_in; [eassumption|].
    now apply find_some_in.
  - apply find_none_iff. apply find_none_iff in E. intros Hin. apply E.
    unfold keys in *. eapply Permutation_in; [|eassumption].
    apply Permutation_map. now apply Permutation_sym.
Qed.

Lemma keys_store k v m : keys (store k v m) = keys m.
Proof.
  induction m as [|[k' v'] m IH]; simpl; [reflexivity|].
  destruct (Z.eqb k k'); simpl; [reflexivity | now rewrite IH].
Qed.

Lemma wf_store k v m : wf m -> wf (store k v m).
Proof. unfold wf. now rewrite keys_store. Qed.

Lemma find_store_same k v m : In k (keys m) -> find k (store k v m) = Some v.
Proof.
  induction m as [|[k' v'] m IH]; simpl; [tauto|].
  intros [->|Hin].
  - rewrite Z.eqb_refl. simpl. now rewrite Z.eqb_refl.
  - destruct (Z.eqb_spec k k') as [->|Hne]; simpl.
    + now rewrite Z.eqb_refl.
    + destruct (Z.eqb_spec k k'); [congruence | auto].
Qed.

Lemma find_store_other k k' v m : k' <> k -> find k' (store k v m) = find k' m.
Proof.
  intros Hne. induction m as [|[k0 v0] m IH]; simpl; [reflexivity|].
  destruct (Z.eqb_spec k k0) as [->|Hne0]; simpl.
  - destruct (Z.eqb_spec k' k0); [congruence | reflexivity].
  - destruct (Z.eqb k' k0); [reflexivity | exact IH].
Qed.

Lemma store_absent k v m : find k m = None -> store k v m = m.
Proof.
  induction m as [|[k' v'] m IH]; simpl; [reflexivity|].
  destruct (Z.eqb k k'); [discriminate|]. intros H. now rewrite IH.
Qed.

Lemma wf_place k v m : wf m -> find k m = None -> wf (place k v m).
Proof.
  intros Hwf Hnone. apply (wf_perm ((k, v) :: m)).
  - apply Permutation_sym, place_perm.
  - unfold wf. simpl. constructor; [now apply find_none_iff | exact Hwf].
Qed.

Lemma find_place k k' v m :
  wf m -> find k m = None ->
  find k' (place k v m) = if Z.eqb k' k then Some v else find k' m.
Proof.
  intros Hwf Hnone.
  rewrite (find_perm k' ((k, v) :: m) (place k v m)).
  - reflexivity.
  - unfold wf. simpl. constructor; [now apply find_none_iff | exact Hwf].
  - apply Permutation_sym, place_perm.
Qed.

Lemma subscript_present dflt k v m :
  find k m = Some v -> subscript dflt k m = (v, m).
Proof. unfold subscript. now intros ->. Qed.

Lemma subscript_absent dflt k m :
  find k m = None -> subscript dflt k m = (dflt, place k dflt m).
Proof. unfold subscript. now intros ->. Qed.

Lemma wf_subscript dflt k m : wf m -> wf (snd (subscript dflt k m)).
Proof.
  intros Hwf. unfold subscript. destruct (find k m) eqn:E; simpl;
    [assumption | now apply wf_place].
Qed.

Lemma find_subscript dflt k k' m :
  wf m ->
  find k' (snd (subscript dflt k m)) =
    if Z.eqb k' k then Some (fst (subscript dflt k m)) else find k' m.
Proof.
  intros Hwf. unfold subscript. destruct (find k m) as [v|] eqn:E; simpl.
  - destruct (Z.eqb_spec k' k) as [->|]; [exact E | reflexivity].
  - now apply find_place.
Qed.

Lemma fst_subscript dflt k m :
  fst (subscript dflt k m) = match find k m with Some v => v | None => dflt end.
Proof. unfold subscript. now destruct (find k m). Qed.

Lemma subscript_key dflt k m : In k (keys (snd (subscript dflt k m))).
Proof.
  unfold subscript. destruct (find k m) as [v|] eqn:E; simpl.
  - eapply in_keys, find_some_in, E.
  - unfold keys. eapply Permutation_in.
    + apply Permutation_map, Permutation_sym, place_perm.
    + now left.
Qed.

Lemma wf_assign dflt k v m : wf m -> wf (assign dflt k v m).
Proof. intros Hwf. unfold assign. now apply wf_store, wf_subscript. Qed.

Lemma find_assign dflt k k' v m :
  wf m -> find k' (assign dflt k v m) = if Z.eqb k' k then Some v else find k' m.
Proof.
  intros Hwf. unfold assign. destruct (Z.eqb_spec k' k) as [->|Hne].
  - apply find_store_same, subscript_key.
  - rewrite find_store_other by assumption.
    rewrite find_subscript by assumption.
    now destruct (Z.eqb_spec k' k).
Qed.

End Facts.
End UMapFacts.

(** ** The node listener *)

Lemma get_prefix_range (g : Guid) : 0 <= get_prefix g < 2 ^ 48.
Proof.
  unfold get_prefix. split.
  - apply Z.land_nonneg. right. lia.
  - change 0xFFFFFFFFFFFF with (Z.ones 48). rewrite Z.land_ones by lia.
    apply Z.mod_pos_bound. lia.
Qed.

Lemma last_name_snoc (p : Z) (msgs : list RNDPMessage) (m : RNDPMessage) :
  last_name p (msgs ++ [m]) =
    if Z.eqb (get_prefix (guid m)) p then Some (name m) else last_name p msgs.
Proof.
  unfold last_name. rewrite rev_app_distr. simpl.
  now destruct (Z.eqb (get_prefix (guid m)) p).
Qed.

Section NodeListener.

Context {order : UMap.HashOrder}.

Lemma node_announcements_snoc msgs m st :
  node_announcements (msgs ++ [m]) st = node_upsert m (node_announcements msgs st).
Proof. unfold node_announcements. now rewrite fold_left_app. Qed.

Lemma node_upsert_topics m st : topics (node_upsert m st) = topics st.
Proof. reflexivity. Qed.

Lemma node_announcements_topics msgs st :
  topics (node_announcements msgs st) = topics st.
Proof.
  revert st. induction msgs as [|m msgs IH]; intros st; simpl; [reflexivity|].
  unfold node_announcements in *. simpl. now rewrite IH.
Qed.

(** Starting from any store with distinct keys: the keys stay distinct, and
    a lookup gives the latest announced name, or what was there before when
    the prefix was not announced. *)
Lemma node_announcements_find msgs st :
  UMap.wf (nodes st) ->
  UMap.wf (nodes (node_announcements msgs st)) /\
  forall p, UMap.find p (nodes (node_announcements msgs st)) =
            match last_name p msgs with
            | Some n => Some n
            | None => UMap.find p (nodes st)
            end.
Proof.
  intros Hwf. induction msgs as [|m msgs [IHwf IHfind]] using rev_ind.
  - split; [exact Hwf | reflexivity].
  - rewrite node_announcements_snoc. split.
    + simpl. now apply UMapFacts.wf_assign.
    + intros p. simpl. rewrite UMapFacts.find_assign by assumption.
      rewrite last_name_snoc, (Z.eqb_sym p).
      destruct (Z.eqb (get_prefix (guid m)) p); [reflexivity | apply IHfind].
Qed.

(** The loop over datagrams processes exactly the decoded announcements of
    the datagrams that pass the size and tag test. *)
Lemma task_nodes_decoded RNDP_deserialize inbox st :
  task_nodes RNDP_deserialize inbox st =
    node_announcements (map RNDP_deserialize (filter (accepts "N"%char) inbox)) st.
Proof.
  revert st. induction inbox as [|d inbox IH]; intros st; [reflexivity|].
  unfold task_nodes, node_announcements in *. simpl.
  unfold task_nodes_step at 2. destruct (accepts "N"%char d); simpl; apply IH.
Qed.

(** C1: after any sequence of node announcements the node mapping has
    pairwise distinct 48-bit prefixes as keys, and the name stored under a
    prefix is the one carried by the latest announcement whose guid masks to
    that prefix; a prefix that was never announced has no entry. *)
Theorem node_last_write_wins (msgs : list RNDPMessage) :
  NoDup (UMap.keys (nodes (node_announcements msgs initial_state))) /\
  (forall p, UMap.find p (nodes (node_announcements msgs initial_state))
             = last_name p msgs) /\
  (forall p n, In (p, n) (nodes (node_announcements msgs initial_state))
               <-> last_name p msgs = Some n) /\
  (forall p, In p (UMap.keys (nodes (node_announcements msgs initial_state)))
             -> 0 <= p < 2 ^ 48).
Proof.
  assert (Hwf0 : UMap.wf (nodes initial_state)) by constructor.
  destruct (node_announcements_find msgs initial_state Hwf0) as [Hwf Hfind].
  assert (Hfind' : forall p,
             UMap.find p (nodes (node_announcements msgs initial_state))
             = last_name p msgs).
  { intros p. rewrite Hfind. now destruct (last_name p msgs). }
  split; [exact Hwf|]. split; [exact Hfind'|]. split.
  - intros p n. rewrite <- Hfind'. symmetry. now apply UMapFacts.find_in_iff.
  - intros p Hin.
    destruct (UMap.find p (nodes (node_announcements msgs initial_state)))
      as [n|] eqn:E.
    + rewrite Hfind' in E. unfold last_name in E.
      destruct (filter _ (rev msgs)) as [|m l] eqn:Hf; [discriminate|].
      assert (Hm : In m (filter (fun m => Z.eqb (get_prefix (guid m)) p) (rev msgs)))
        by (rewrite Hf; now left).
      apply filter_In in Hm. destruct Hm as [_ Hm].
      apply Z.eqb_eq in Hm. subst p. apply get_prefix_range.
    + apply UMapFacts.find_none_iff in E. contradiction.
Qed.

End NodeListener.

(** ** The endpoint listener *)

Lemma same_record_iff tp pub ep :
  same_record tp pub ep = true <-> ep = {| topic := tp; is_pub := pub |}.
Proof.
  unfold same_record. destruct ep as [t b]; simpl.
  rewrite andb_true_iff, String.eqb_eq, Bool.eqb_true_iff.
  split; [intros [-> ->]; reflexivity | intros [= -> ->]; now split].
Qed.

Lemma scan_exists_existsb tp pub l :
  scan_exists tp pub l = existsb (same_record tp pub) l.
Proof.
  unfold scan_exists.
  assert (H : forall acc,
             fold_left
               (fun found ep =>
                  if String.eqb (topic ep) tp && Bool.eqb (is_pub ep) pub
                  then true else found) l acc
             = acc || existsb (same_record tp pub) l).
  { induction l as [|ep l IH]; intros acc; simpl.
    - now rewrite orb_false_r.
    - rewrite IH. unfold same_record.
      destruct (String.eqb (topic ep) tp && Bool.eqb (is_pub ep) pub);
        destruct acc; reflexivity. }
  apply H.
Qed.

Lemma scan_exists_true_iff tp pub l :
  scan_exists tp pub l = true <-> In {| topic := tp; is_pub := pub |} l.
Proof.
  rewrite scan_exists_existsb, existsb_exists. split.
  - intros [ep [Hin Hsame]]. apply same_record_iff in Hsame. now subst.
  - intros Hin. eexists. split; [eassumption | now apply same_record_iff].
Qed.

Lemma announced_snoc p ep msgs m :
  announced p ep (msgs ++ [m]) <-> announced p ep msgs \/ announces p ep m.
Proof.
  unfold announced. split.
  - intros [m' [Hin Ha]]. apply in_app_or in Hin. destruct Hin as [Hin|[<-|[]]].
    + left. eauto.
    + now right.
  - intros [[m' [Hin Ha]]|Ha].
    + exists m'. split; [apply in_or_app; now left | assumption].
    + exists m. split; [apply in_or_app; right; now left | assumption].
Qed.

Section EndpointListener.

Context {order : UMap.HashOrder}.

Lemma endpoint_announcements_snoc msgs m st :
  endpoint_announcements (msgs ++ [m]) st
  = endpoint_upsert m (endpoint_announcements msgs st).
Proof. unfold endpoint_announcements. now rewrite fold_left_app. Qed.

Lemma endpoint_upsert_nodes m st : nodes (endpoint_upsert m st) = nodes st.
Proof.
  unfold endpoint_upsert.
  destruct (UMap.subscript [] (get_prefix (endpoint_guid m)) (topics st)) as [l tps].
  now destruct (negb _).
Qed.

Lemma endpoint_upsert_wf m st :
  UMap.wf (topics st) -> UMap.wf (topics (endpoint_upsert m st)).
Proof.
  intros Hwf. unfold endpoint_upsert.
  pose proof (UMapFacts.wf_subscript [] (get_prefix (endpoint_guid m)) (topics st) Hwf)
    as Hwf1.
  destruct (UMap.subscript [] (get_prefix (endpoint_guid m)) (topics st)) as [l tps].
  simpl in Hwf1. destruct (negb _); simpl; [now apply UMapFacts.wf_store | assumption].
Qed.

Lemma endpoint_upsert_find m st q :
  UMap.wf (topics st) ->
  UMap.find q (topics (endpoint_upsert m st)) =
    if Z.eqb q (get_prefix (endpoint_guid m))
    then Some (upserted m (endpoints_of (get_prefix (endpoint_guid m)) st))
    else UMap.find q (topics st).
Proof.
  intros Hwf. unfold endpoint_upsert, upserted, endpoints_of.
  pose proof (UMapFacts.find_subscript [] (get_prefix (endpoint_guid m)) q (topics st) Hwf)
    as Hfind.
  pose proof (UMapFacts.fst_subscript [] (get_prefix (endpoint_guid m)) (topics st))
    as Hfst.
  pose proof (UMapFacts.subscript_key [] (get_prefix (endpoint_guid m)) (topics st))
    as Hkey.
  destruct (UMap.subscript [] (get_prefix (endpoint_guid m)) (topics st)) as [l tps].
  simpl in Hfind, Hfst, Hkey. rewrite <- Hfst. fold (pub_of m).
  destruct (scan_exists (msg_topic m) (pub_of m) l); simpl.
  - exact Hfind.
  - destruct (Z.eqb_spec q (get_prefix (endpoint_guid m))) as [->|Hne].
    + now apply UMapFacts.find_store_same.
    + now rewrite UMapFacts.find_store_other.
Qed.

Lemma upserted_nodup m l : NoDup l -> NoDup (upserted m l).
Proof.
  intros Hnd. unfold upserted.
  destruct (scan_exists (msg_topic m) (pub_of m) l) eqn:E; [assumption|].
  apply NoDup_app; [assumption | repeat constructor; intros [] |].
  intros ep Hin [<-|[]].
  apply scan_exists_true_iff in Hin. congruence.
Qed.

Lemma upserted_in m l ep :
  In ep (upserted m l) <->
  In ep l \/ ep = {| topic := msg_topic m; is_pub := pub_of m |}.
Proof.
  unfold upserted. destruct (scan_exists (msg_topic m) (pub_of m) l) eqn:E.
  - apply scan_exists_true_iff in E. split; [tauto | intros [H| ->]; assumption].
  - rewrite in_app_iff. simpl. split; [intros [H|[H|[]]]; auto | intros [H|H]; auto].
Qed.

Lemma announces_record p ep m :
  announces p ep m <->
  get_prefix (endpoint_guid m) = p /\
  ep = {| topic := msg_topic m; is_pub := pub_of m |}.
Proof.
  unfold announces. destruct ep as [t b]; simpl.
  split; [intros [-> [-> ->]] | intros [-> [= -> ->]]]; auto.
Qed.

Lemma topics_inv_step msgs m st :
  topics_inv msgs st -> topics_inv (msgs ++ [m]) (endpoint_upsert m st).
Proof.
  intros [Hwf Hinv]. split; [now apply endpoint_upsert_wf|].
  intros p. destruct (Hinv p) as [Hnd [Hin Hnone]].
  unfold endpoints_of at 1 2. rewrite endpoint_upsert_find by assumption.
  destruct (Z.eqb_spec p (get_prefix (endpoint_guid m))) as [->|Hne].
  - split; [now apply upserted_nodup|]. split.
    + intros ep. rewrite upserted_in, announced_snoc, Hin, announces_record. tauto.
    + split; [discriminate|]. intros H. exfalso.
      apply (H m); [apply in_or_app; right; now left | reflexivity].
  - fold (endpoints_of p st). split; [assumption|]. split.
    + intros ep. rewrite announced_snoc, Hin, announces_record.
      split; [tauto | intros [H|[H _]]; [assumption | congruence]].
    + rewrite Hnone. split.
      * intros H m' Hm'. apply in_app_or in Hm'.
        destruct Hm' as [Hm'|[<-|[]]]; [now apply H | congruence].
      * intros H m' Hm'. apply H, in_or_app. now left.
Qed.

Lemma topics_inv_initial : topics_inv [] initial_state.
Proof.
  split; [constructor|]. intros p. split; [constructor|]. split.
  - intros ep. split; [intros [] | intros [m [[] _]]].
  - split; [intros _ m [] | reflexivity].
Qed.

Lemma endpoint_announcements_inv msgs :
  topics_inv msgs (endpoint_announcements msgs initial_state).
Proof.
  induction msgs as [|m msgs IH] using rev_ind.
  - apply topics_inv_initial.
  - rewrite endpoint_announcements_snoc. now apply topics_inv_step.
Qed.

Lemma task_topics_decoded REDP_deserialize inbox st :
  task_topics REDP_deserialize inbox st =
    endpoint_announcements (map REDP_deserialize (filter (accepts "E"%char) inbox)) st.
Proof.
  revert st. induction inbox as [|d inbox IH]; intros st; [reflexivity|].
  unfold task_topics, endpoint_announcements in *. simpl.
  unfold task_topics_step at 2. destruct (accepts "E"%char d); simpl; apply IH.
Qed.

(** C2: after any sequence of endpoint announcements the endpoint list of
    every prefix holds no record twice and holds exactly the (topic, role)
    records announced for that prefix; in particular a topic announced for
    a prefix both as Writer and as Reader has its Publisher record and its
    Subscriber record side by side, as two different elements of the list. *)
Theorem endpoint_dedup (msgs : list REDPMessage) (p : Z) :
  NoDup (UMap.keys (topics (endpoint_announcements msgs initial_state))) /\
  NoDup (endpoints_of p (endpoint_announcements msgs initial_state)) /\
  (forall ep, In ep (endpoints_of p (endpoint_announcements msgs initial_state))
              <-> announced p ep msgs) /\
  (forall tp,
      announced p {| topic := tp; is_pub := true |} msgs ->
      announced p {| topic := tp; is_pub := false |} msgs ->
      exists i j, i <> j /\
        nth_error (endpoints_of p (endpoint_announcements msgs initial_state)) i
          = Some {| topic := tp; is_pub := true |} /\
        nth_error (endpoints_of p (endpoint_announcements msgs initial_state)) j
          = Some {| topic := tp; is_pub := false |}).
Proof.
  destruct (endpoint_announcements_inv msgs) as [Hwf Hinv].
  destruct (Hinv p) as [Hnd [Hin _]].
  split; [exact Hwf|]. split; [exact Hnd|]. split; [exact Hin|].
  intros tp Hpub Hsub. apply Hin in Hpub, Hsub.
  apply In_nth_error in Hpub, Hsub.
  destruct Hpub as [i Hi], Hsub as [j Hj]. exists i, j.
  split; [|now split]. intros ->. rewrite Hi in Hj. discriminate.
Qed.

End EndpointListener.

(** ** The set of topic names *)
Module StrSetFacts.

Import StrSet.

Lemma ltb_lt a b : String.ltb a b = true <-> OrderedTypeEx.String_as_OT.lt a b.
Proof.
  unfold String.ltb. rewrite <- OrderedTypeEx.String_as_OT.cmp_lt.
  unfold OrderedTypeEx.String_as_OT.cmp.
  destruct (String.compare a b); split; congruence.
Qed.

Lemma lt_trans a b c : lt a b -> lt b c -> lt a c.
Proof.
  unfold lt. rewrite !ltb_lt. apply OrderedTypeEx.String_as_OT.lt_trans.
Qed.

Lemma lt_irrefl a : ~ lt a a.
Proof.
  unfold lt. rewrite ltb_lt. intros H.
  apply OrderedTypeEx.String_as_OT.lt_not_eq in H. apply H. reflexivity.
Qed.

Lemma not_lt_eq a b : String.ltb a b = false -> String.ltb b a = false -> a = b.
Proof.
  unfold String.ltb. intros Hab Hba.
  apply OrderedTypeEx.String_as_OT.cmp_eq.
  unfold OrderedTypeEx.String_as_OT.cmp.
  pose proof (OrderedTypeEx.String_as_OT.cmp_antisym a b) as Hanti.
  unfold OrderedTypeEx.String_as_OT.cmp in Hanti.
  destruct (String.compare a b); [reflexivity | discriminate |].
  destruct (String.compare b a); simpl in Hanti; discriminate.
Qed.

Lemma insert_in x z s : In z (insert x s) <-> z = x \/ In z s.
Proof.
  induction s as [|y s IH]; simpl.
  - split; [intros [<-|[]]; now left | intros [->|[]]; now left].
  - destruct (String.ltb x y) eqn:Hxy; [simpl; split; intros H; intuition congruence|].
    destruct (String.ltb y x) eqn:Hyx.
    + simpl. rewrite IH. tauto.
    + pose proof (not_lt_eq x y Hxy Hyx) as ->. simpl. intuition congruence.
Qed.

Lemma insert_sorted x s : StronglySorted lt s -> StronglySorted lt (insert x s).
Proof.
  induction 1 as [|y s Hs IH Hall]; simpl.
  - repeat constructor.
  - destruct (String.ltb x y) eqn:Hxy.
    + constructor; [now constructor|]. constructor; [exact Hxy|].
      eapply Forall_impl; [|exact Hall]. intros z Hz. eapply lt_trans; eassumption.
    + destruct (String.ltb y x) eqn:Hyx; [|now constructor].
      constructor; [exact IH|]. apply Forall_forall. intros z Hz.
      apply insert_in in Hz. destruct Hz as [->|Hz]; [exact Hyx|].
      rewrite Forall_forall in Hall. now apply Hall.
Qed.

Lemma sorted_nodup s : StronglySorted lt s -> NoDup s.
Proof.
  induction 1 as [|y s Hs IH Hall]; constructor; [|exact IH].
  intros Hin. rewrite Forall_forall in Hall. exact (lt_irrefl y (Hall y Hin)).
Qed.

End StrSetFacts.

(** ** The graph export *)

Lemma inner_topics_spec (l : list EndpointInfo) (acc : StrSet.t) :
  StronglySorted StrSet.lt acc ->
  StronglySorted StrSet.lt
    (fold_left (fun acc' ep => StrSet.insert (topic ep) acc') l acc) /\
  forall t, In t (fold_left (fun acc' ep => StrSet.insert (topic ep) acc') l acc)
            <-> In t acc \/ exists ep, In ep l /\ topic ep = t.
Proof.
  revert acc. induction l as [|ep l IH]; intros acc Hs; simpl.
  - split; [exact Hs|]. intros t. split; [now left | intros [H|[ep [[] _]]]; exact H].
  - destruct (IH (StrSet.insert (topic ep) acc) (StrSetFacts.insert_sorted _ _ Hs))
      as [Hs' Hin].
    split; [exact Hs'|]. intros t. rewrite Hin, StrSetFacts.insert_in. split.
    + intros [[->|H]|[ep' [H1 H2]]]; eauto.
    + intros [H|[ep' [[->|H1] H2]]]; eauto.
Qed.

Lemma all_topics_spec (tps : UMap.t (list EndpointInfo)) :
  StronglySorted StrSet.lt (all_topics tps) /\
  forall t, In t (all_topics tps)
            <-> exists p l ep, In (p, l) tps /\ In ep l /\ topic ep = t.
Proof.
  unfold all_topics.
  assert (H : forall acc, StronglySorted StrSet.lt acc ->
    StronglySorted StrSet.lt
      (fold_left
         (fun acc0 pair =>
            fold_left (fun acc' ep => StrSet.insert (topic ep) acc') (snd pair) acc0)
         tps acc) /\
    forall t, In t
      (fold_left
         (fun acc0 pair =>
            fold_left (fun acc' ep => StrSet.insert (topic ep) acc') (snd pair) acc0)
         tps acc)
      <-> In t acc \/ exists p l ep, In (p, l) tps /\ In ep l /\ topic ep = t).
  { induction tps as [|[p l] tps IH]; intros acc Hs; simpl.
    - split; [exact Hs|]. intros t.
      split; [now left | intros [H|[p [l [ep [[] _]]]]]; exact H].
    - destruct (inner_topics_spec l acc Hs) as [Hs1 Hin1].
      destruct (IH _ Hs1) as [Hs2 Hin2]. split; [exact Hs2|].
      intros t. rewrite Hin2, Hin1. split.
      + intros [[Ht|[ep [H1 H2]]]|[p' [l' [ep [H1 H2]]]]].
        * now left.
        * right. exists p, l, ep. split; [now left | now split].
        * right. exists p', l', ep. split; [now right | exact H2].
      + intros [Ht|[p' [l' [ep [[E|H1] H2]]]]].
        * left. now left.
        * injection E as -> ->. left. right. exists ep. exact H2.
        * right. exists p', l', ep. now split. }
  destruct (H StrSet.empty (SSorted_nil _)) as [Hs Hin]. split; [exact Hs|].
  intros t. rewrite Hin. split; [intros [[]|Ht]; exact Ht | now right].
Qed.

Section GraphExport.

Context {order : UMap.HashOrder}.

Lemma node_lines_spec (st : MonitorState) (p : Z) (nm : string) :
  node_lines p nm (topics st) = (node_block st (p, nm), topics st).
Proof.
  unfold node_lines, node_block, endpoints_of, UMap.count, UMap.subscript. simpl.
  destruct (UMap.find p (topics st)); reflexivity.
Qed.

Lemma nodes_loop_spec (st : MonitorState) (ns : list (Z * string)) :
  nodes_loop ns (topics st) = (flat_map (node_block st) ns, topics st).
Proof.
  induction ns as [|[p nm] ns IH]; [reflexivity|].
  cbn [nodes_loop flat_map]. rewrite node_lines_spec, IH. reflexivity.
Qed.

(** The export prints the header, one ellipse per topic of [all_topics], the
    block of every entry of [nodes] and the footer, and leaves the store as
    it found it. *)
Lemma graph_lines_spec (st : MonitorState) :
  graph_lines st =
    (Header :: map TopicDecl (all_topics (topics st))
       ++ flat_map (node_block st) (nodes st) ++ [Footer],
     st).
Proof.
  unfold graph_lines. rewrite nodes_loop_spec. now destruct st.
Qed.

Lemma generate_graph_state (fopen_ok : bool) (st : MonitorState) :
  out_state (generate_graph fopen_ok st) = st.
Proof.
  unfold generate_graph. destruct fopen_ok; simpl; [|reflexivity].
  now rewrite graph_lines_spec.
Qed.

Lemma generate_graph_file (st : MonitorState) :
  out_file (generate_graph true st) = Some (print_lines (fst (graph_lines st))).
Proof.
  unfold generate_graph. simpl. now destruct (graph_lines st).
Qed.

Lemma in_graph_lines (st : MonitorState) (line : DotLine) :
  In line (fst (graph_lines st)) <->
  line = Header \/
  (exists t, line = TopicDecl t /\ In t (all_topics (topics st))) \/
  (exists entry, In entry (nodes st) /\ In line (node_block st entry)) \/
  line = Footer.
Proof.
  rewrite graph_lines_spec. simpl.
  rewrite in_app_iff, in_app_iff, in_map_iff, in_flat_map. simpl.
  split.
  - intros [H|[[t [H1 H2]]|[H|[H|[]]]]]; eauto 6.
  - intros [H|[[t [H1 H2]]|[H|H]]]; eauto 6.
Qed.

Lemma in_node_block (st : MonitorState) (entry : Z * string) (line : DotLine) :
  In line (node_block st entry) <->
  line = NodeDecl (fst entry) (snd entry) \/
  exists ep, In ep (endpoints_of (fst entry) st) /\ line = edge_line (fst entry) ep.
Proof.
  unfold node_block. simpl. rewrite in_map_iff. split.
  - intros [H|[ep [H1 H2]]]; eauto.
  - intros [H|[ep [H1 H2]]]; eauto.
Qed.

End GraphExport.

Section GraphClaims.

Context {order : UMap.HashOrder}.

Lemma edge_line_about (p q : Z) (ep : EndpointInfo) :
  about_node p (edge_line q ep) -> q = p.
Proof.
  unfold edge_line. destruct (is_pub ep); simpl; intros [H|H]; congruence.
Qed.

(** C3, amended: a prefix that has no entry in the node mapping gets no
    vertex of its own in the export, neither a box nor an edge, whatever its
    endpoint list holds; the topics of that list are still declared as
    ellipses. *)
Theorem unnamed_prefix_not_drawn (st : MonitorState) (p : Z) :
  ~ In p (UMap.keys (nodes st)) ->
  (forall line, In line (fst (graph_lines st)) -> ~ about_node p line) /\
  (forall ep, In ep (endpoints_of p st) ->
              In (TopicDecl (topic ep)) (fst (graph_lines st))).
Proof.
  intros Hnot. split.
  - intros line Hin Habout. apply in_graph_lines in Hin.
    destruct Hin as [-> | [[t [-> _]] | [[entry [Hentry Hblock]] | ->]]];
      try exact Habout.
    apply Hnot. apply in_node_block in Hblock.
    destruct Hblock as [-> | [ep [_ ->]]].
    + simpl in Habout. subst p. now apply in_map.
    + apply edge_line_about in Habout. subst p. now apply in_map.
  - intros ep Hep. apply in_graph_lines. right. left.
    exists (topic ep). split; [reflexivity|].
    apply all_topics_spec. unfold endpoints_of in Hep.
    destruct (UMap.find p (topics st)) as [l|] eqn:E; [|destruct Hep].
    exists p, l, ep. split; [now apply UMapFacts.find_some_in | now split].
Qed.

(** C4: the export leaves the store as it found it, so a second export of
    the same snapshot writes the same text; the lines are the header, the
    topic ellipses, the node blocks and the footer, and the ellipses come in
    strictly ascending order of [std::string]'s [<], one per topic name that
    occurs in the store. *)
Theorem graph_export_deterministic (st : MonitorState) :
  (forall fopen_ok, out_state (generate_graph fopen_ok st) = st) /\
  (exists text,
      out_file (generate_graph true st) = Some text /\
      out_file (generate_graph true (out_state (generate_graph true st))) = Some text) /\
  (exists ts body,
      fst (graph_lines st) = Header :: map TopicDecl ts ++ body ++ [Footer] /\
      StronglySorted StrSet.lt ts /\
      (forall t, In t ts <-> topic_in_store t st) /\
      (forall line, In line body -> ~ is_topic_decl line)).
Proof.
  split; [intros f; apply generate_graph_state|]. split.
  - exists (print_lines (fst (graph_lines st))).
    rewrite generate_graph_state. split; apply generate_graph_file.
  - exists (all_topics (topics st)), (flat_map (node_block st) (nodes st)).
    destruct (all_topics_spec (topics st)) as [Hs Hin].
    split; [now rewrite graph_lines_spec|]. split; [exact Hs|].
    split; [exact Hin|].
    intros line Hline. apply in_flat_map in Hline.
    destruct Hline as [entry [_ Hblock]]. apply in_node_block in Hblock.
    destruct Hblock as [-> | [ep [_ ->]]]; [intros []|].
    unfold edge_line. destruct (is_pub ep); intros [].
Qed.

(** C5: every record of the endpoint list of a known node has its edge in
    the export; for a Publisher record the edge leaves the node vertex and
    enters the topic vertex, for a Subscriber record it leaves the topic
    vertex and enters the node vertex, and the text printed for it has the
    source identifier before the arrow and the target identifier after it.
    Every edge of the export is the edge of such a record. *)
Theorem edge_direction (st : MonitorState) (p : Z) (nm : string) (ep : EndpointInfo) :
  In (p, nm) (nodes st) ->
  In ep (endpoints_of p st) ->
  In (edge_line p ep) (fst (graph_lines st)) /\
  (is_pub ep = true ->
   edge_line p ep = Edge (NodeV p) (TopicV (topic ep)) "blue" "pub") /\
  (is_pub ep = false ->
   edge_line p ep = Edge (TopicV (topic ep)) (NodeV p) "darkgreen" "sub") /\
  (forall src dst color label,
      In (Edge src dst color label) (fst (graph_lines st)) ->
      exists q nm' ep',
        In (q, nm') (nodes st) /\ In ep' (endpoints_of q st) /\
        ((is_pub ep' = true /\ src = NodeV q /\ dst = TopicV (topic ep')) \/
         (is_pub ep' = false /\ src = TopicV (topic ep') /\ dst = NodeV q))) /\
  (forall src dst color label,
      print_line (Edge src dst color label) =
        ("  " ++ vertex_id src ++ " -> " ++ vertex_id dst ++ " [color=" ++ color ++
         ", label=" ++ dquote ++ label ++ dquote ++ "];" ++ newline)%string).
Proof.
  intros Hnode Hep. split.
  - apply in_graph_lines. right. right. left. exists (p, nm).
    split; [exact Hnode|]. apply in_node_block. right. exists ep. now split.
  - split; [unfold edge_line; now intros ->|].
    split; [unfold edge_line; now intros ->|]. split; [|reflexivity].
    intros src dst color label Hin. apply in_graph_lines in Hin.
    destruct Hin as [H|[[t [H _]]|[[[q nm'] [Hentry Hblock]]|H]]]; try discriminate.
    apply in_node_block in Hblock. simpl in Hblock.
    destruct Hblock as [H|[ep' [Hep' Hline]]]; [discriminate|].
    exists q, nm', ep'. split; [exact Hentry|]. split; [exact Hep'|].
    unfold edge_line in Hline. destruct (is_pub ep'); injection Hline as -> -> _ _.
    + left. now repeat split.
    + right. now repeat split.
Qed.

(** C8, amended: when [fopen] fails the export returns at once: the store is
    the one it was given, nothing is written, [system] is not called, and
    nothing is printed either; the console then reads its next line.  The
    file is written and the rasterizer started only when [fopen] succeeds,
    and then too nothing is printed. *)
Theorem export_aborts_silently (st : MonitorState) (arg : string) :
  generate_graph false st
  = {| out_state := st; out_file := None; out_system := []; out_stdout := [] |} /\
  command false 1 "graph" arg st = Some (no_effect st) /\
  command false 2 "graph" arg st = Some (no_effect st) /\
  (forall fopen_ok,
      out_file (generate_graph fopen_ok st) <> None <-> fopen_ok = true) /\
  (forall fopen_ok,
      out_system (generate_graph fopen_ok st) <> [] <-> fopen_ok = true) /\
  (forall fopen_ok, out_stdout (generate_graph fopen_ok st) = []).
Proof.
  split; [reflexivity|]. split; [reflexivity|]. split; [reflexivity|].
  unfold generate_graph. destruct (graph_lines st) as [ls st'].
  split; [|split]; intros [|]; simpl; try reflexivity;
    split; intros H; try reflexivity; try discriminate; now contradiction H.
Qed.

End GraphClaims.

(** C3 as stated fails on [orphan_state], the store after a single endpoint
    announcement: 0xAA has an endpoint list and no name, and the export
    consists of the header, the ellipse of its topic and the footer; no box
    is declared for 0xAA. *)
Lemma orphan_prefix_has_no_box :
  orphan_state
  = @endpoint_upsert UMap.append_order
      {| endpoint_guid := mk_guid 0xAA; msg_topic := "imu"; type := Writer |}
      initial_state /\
  In 0xAA (UMap.keys (topics orphan_state)) /\
  ~ In 0xAA (UMap.keys (nodes orphan_state)) /\
  fst (@graph_lines UMap.append_order orphan_state)
  = [Header; TopicDecl "imu"; Footer] /\
  ~ (exists label,
        In (NodeDecl 0xAA label) (fst (@graph_lines UMap.append_order orphan_state))).
Proof.
  split; [reflexivity|].
  split; [now left|]. split; [intros []|]. split; [reflexivity|].
  intros [label Hin]. simpl in Hin.
  destruct Hin as [H|[H|[H|[]]]]; discriminate.
Qed.

(** On [orphan_state] the prefix 0xAA is not drawn; its topic imu is. *)
Lemma unnamed_prefix_not_drawn_witness :
  ~ In 0xAA (UMap.keys (nodes orphan_state)) /\
  (forall line, In line (fst (@graph_lines UMap.append_order orphan_state))
                -> ~ about_node 0xAA line) /\
  (forall ep, In ep (endpoints_of 0xAA orphan_state) ->
              In (TopicDecl (topic ep))
                 (fst (@graph_lines UMap.append_order orphan_state))).
Proof.
  split; [intros []|].
  apply (@unnamed_prefix_not_drawn UMap.append_order orphan_state 0xAA).
  intros [].
Defined.

(** The Subscriber record of [sensor_state]: the edge runs from cmd to the node. *)
Lemma edge_direction_witness :
  In (0xAA, "sensor1") (nodes sensor_state) /\
  In {| topic := "cmd"; is_pub := false |} (endpoints_of 0xAA sensor_state) /\
  In (Edge (TopicV "cmd") (NodeV 0xAA) "darkgreen" "sub")
     (fst (@graph_lines UMap.append_order sensor_state)).
Proof.
  split; [now left|]. split; [right; now left|].
  apply (@edge_direction UMap.append_order sensor_state 0xAA "sensor1"
           {| topic := "cmd"; is_pub := false |}).
  - now left.
  - right. now left.
Defined.

(** C8 as stated fails: with [fopen] failing, the export of the empty store
    prints nothing, so the failure is not reported. *)
Lemma open_failure_not_reported :
  @generate_graph UMap.append_order false initial_state = no_effect initial_state /\
  ~ (out_stdout (@generate_graph UMap.append_order false initial_state) <> []).
Proof.
  split; [reflexivity|]. intros H. apply H. reflexivity.
Qed.

(** ** Reading a console line *)

Lemma token_char_spec (c : ascii) :
  token_char c = true -> isspace c = false /\ not_nul c = true.
Proof.
  unfold token_char. rewrite andb_true_iff, negb_true_iff. tauto.
Qed.

Lemma all_chars_weaken (f g : ascii -> bool) (s : string) :
  (forall c, f c = true -> g c = true) ->
  all_chars f s = true -> all_chars g s = true.
Proof.
  intros Hfg. induction s as [|c s IH]; simpl; [reflexivity|].
  rewrite !andb_true_iff. intros [H1 H2]. split; auto.
Qed.

Lemma c_str_not_nul (s : string) : all_chars not_nul (c_str s) = true.
Proof.
  induction s as [|c s IH]; simpl; [reflexivity|].
  destruct (Ascii.eqb c "000"%char) eqn:E; simpl; [reflexivity|].
  unfold not_nul at 1. now rewrite E.
Qed.

Lemma c_str_app (t r : string) :
  all_chars not_nul t = true -> c_str (t ++ r) = (t ++ c_str r)%string.
Proof.
  induction t as [|c t IH]; simpl; [reflexivity|].
  rewrite andb_true_iff. unfold not_nul at 1. rewrite negb_true_iff.
  intros [-> H]. now rewrite IH.
Qed.

Lemma skip_spaces_not_nul (s : string) :
  all_chars not_nul s = true -> all_chars not_nul (skip_spaces s) = true.
Proof.
  induction s as [|c s IH]; simpl; [reflexivity|].
  rewrite andb_true_iff. intros [H1 H2].
  destruct (isspace c); [auto | simpl; now rewrite H1, H2].
Qed.

Lemma scan_token_spec (s : string) :
  all_chars not_nul s = true ->
  all_chars token_char (fst (scan_token s)) = true /\
  all_chars not_nul (snd (scan_token s)) = true.
Proof.
  induction s as [|c s IH]; simpl; [now split|].
  rewrite andb_true_iff. intros [H1 H2].
  destruct (isspace c) eqn:E; simpl.
  - split; [reflexivity | now rewrite H1, H2].
  - destruct (IH H2) as [IH1 IH2]. destruct (scan_token s) as [t r]. simpl in *.
    split; [|exact IH2]. unfold token_char at 1. now rewrite E, H1, IH1.
Qed.

Lemma scan_token_app (t r : string) (c : ascii) :
  all_chars token_char t = true -> isspace c = true ->
  scan_token (t ++ String c r) = (t, String c r).
Proof.
  intros Ht Hc. induction t as [|x t IH]; simpl.
  - now rewrite Hc.
  - simpl in Ht. apply andb_true_iff in Ht. destruct Ht as [Hx Ht].
    apply token_char_spec in Hx. destruct Hx as [-> _]. now rewrite IH.
Qed.

Lemma is_token_spec (s : string) :
  is_token s = true ->
  s <> EmptyString /\ (String.length s < 64)%nat /\ all_chars token_char s = true.
Proof.
  destruct s as [|c s]; [discriminate|]. unfold is_token.
  rewrite andb_true_iff, Nat.ltb_lt. intros [H1 H2].
  split; [discriminate | now split].
Qed.

Lemma is_token_fits (s : string) : is_token s = true -> fits s = true.
Proof.
  intros H. apply is_token_spec in H. destruct H as [_ [Hlen Hall]].
  unfold fits. apply andb_true_iff. split; [now apply Nat.ltb_lt|].
  eapply all_chars_weaken; [|exact Hall]. intros c Hc. now apply token_char_spec in Hc.
Qed.

Lemma skip_spaces_token (t r : string) :
  is_token t = true -> skip_spaces (t ++ r) = (t ++ r)%string.
Proof.
  intros H. apply is_token_spec in H. destruct H as [Hne [_ Hall]].
  destruct t as [|c t]; [contradiction|]. simpl in *.
  apply andb_true_iff in Hall. destruct Hall as [Hc _].
  apply token_char_spec in Hc. destruct Hc as [-> _]. reflexivity.
Qed.

(** The line [info <name>] is scanned into the two buffers as it stands when
    the name is a token. *)
Lemma sscanf_info_line (name cmd0 arg0 : string) :
  is_token name = true ->
  sscanf_ss ("info " ++ name ++ newline) cmd0 arg0 = Some (2, "info", name).
Proof.
  intros Htok. pose proof (is_token_spec name Htok) as [Hne [Hlen Hall]].
  assert (Hnn : all_chars not_nul name = true)
    by (eapply all_chars_weaken; [|exact Hall];
        intros c Hc; now apply token_char_spec in Hc).
  unfold sscanf_ss.
  replace (c_str ("info " ++ name ++ newline))
    with ("info " ++ name ++ newline)%string
    by (simpl; now rewrite (c_str_app name newline Hnn)).
  cbn [append skip_spaces isspace Ascii.eqb Bool.eqb orb scan_token].
  change (64 <=? String.length "info")%nat with false. cbv iota.
  rewrite (skip_spaces_token name newline Htok).
  unfold newline. rewrite (scan_token_app name EmptyString "010"%char Hall eq_refl).
  destruct name as [|c name]; [contradiction|].
  replace (64 <=? String.length (String c name))%nat with false; [reflexivity|].
  symmetry. apply Nat.leb_gt. exact Hlen.
Qed.

(** Whatever the line, a scan that stays inside the buffers leaves them as
    [scanned] says. *)
Lemma sscanf_scanned (buf cmd0 arg0 cmd arg : string) (n : Z) :
  fits cmd0 = true -> fits arg0 = true ->
  sscanf_ss buf cmd0 arg0 = Some (n, cmd, arg) ->
  scanned n cmd arg = true.
Proof.
  intros Hc0 Ha0. unfold sscanf_ss.
  pose proof (scan_token_spec (skip_spaces (c_str buf))
                (skip_spaces_not_nul _ (c_str_not_nul buf))) as [Ht1 Hr1].
  destruct (scan_token (skip_spaces (c_str buf))) as [t1 r1]. cbn [fst snd] in *.
  destruct t1 as [|x1 t1].
  { intros [= <- <- <-]. unfold scanned. change (EOF <=? 0) with true. cbv iota.
    apply andb_true_iff. now split. }
  destruct (64 <=? String.length (String x1 t1))%nat eqn:Hl1; [discriminate|].
  apply Nat.leb_gt in Hl1.
  assert (Htok1 : is_token (String x1 t1) = true).
  { unfold is_token. apply andb_true_iff. split; [now apply Nat.ltb_lt | exact Ht1]. }
  pose proof (scan_token_spec (skip_spaces r1) (skip_spaces_not_nul _ Hr1)) as [Ht2 _].
  destruct (scan_token (skip_spaces r1)) as [t2 r2]. cbn [fst] in Ht2.
  destruct t2 as [|x2 t2].
  - intros [= <- <- <-]. unfold scanned. change (1 <=? 0) with false.
    change (1 =? 1) with true. cbv iota. apply andb_true_iff. now split.
  - destruct (64 <=? String.length (String x2 t2))%nat eqn:Hl2; [discriminate|].
    apply Nat.leb_gt in Hl2. intros [= <- <- <-].
    unfold scanned. change (2 <=? 0) with false. change (2 =? 1) with false.
    change (2 =? 2) with true. cbv iota. apply andb_true_iff. split; [exact Htok1|].
    unfold is_token. apply andb_true_iff. split; [now apply Nat.ltb_lt | exact Ht2].
Qed.

Lemma console_turn_info {order : UMap.HashOrder} (fopen_ok : bool)
  (name cmd0 arg0 : string) (st : MonitorState) :
  is_token name = true ->
  console_turn fopen_ok ("info " ++ name ++ newline) cmd0 arg0 st
  = Continue "info" name (info_cmd name st).
Proof.
  intros Htok. unfold console_turn. now rewrite (sscanf_info_line name cmd0 arg0 Htok).
Qed.

Lemma scanned_fits (n : Z) (cmd arg : string) :
  scanned n cmd arg = true -> fits cmd = true /\ fits arg = true.
Proof.
  unfold scanned. destruct (n <=? 0); [now rewrite andb_true_iff|].
  destruct (n =? 1).
  - rewrite andb_true_iff. intros [H1 H2]. split; [now apply is_token_fits | exact H2].
  - destruct (n =? 2); [|discriminate].
    rewrite andb_true_iff. intros [H1 H2]. split; now apply is_token_fits.
Qed.

(** Every turn that stays inside the buffers is the dispatch on a scan
    result, and leaves the buffers fit for the next turn. *)
Lemma console_turn_scanned {order : UMap.HashOrder} (fopen_ok : bool)
  (buf cmd0 arg0 cmd arg : string) (st : MonitorState) (o : Outcome) :
  fits cmd0 = true -> fits arg0 = true ->
  console_turn fopen_ok buf cmd0 arg0 st = Continue cmd arg o ->
  exists n,
    scanned n cmd arg = true /\
    command fopen_ok n cmd arg st = Some o /\
    fits cmd = true /\ fits arg = true.
Proof.
  intros Hc Ha. unfold console_turn.
  destruct (sscanf_ss buf cmd0 arg0) as [[[n c] a]|] eqn:E; [|discriminate].
  pose proof (sscanf_scanned buf cmd0 arg0 c a n Hc Ha E) as Hs.
  destruct (command fopen_ok n c a st) as [o'|] eqn:Ecmd; [|discriminate].
  intros [= <- <- <-]. exists n. split; [exact Hs|]. split; [exact Ecmd|].
  now apply scanned_fits in Hs.
Qed.

(** ** The info command *)
Section InfoCommand.

Context {order : UMap.HashOrder}.

Lemma endpoints_of_subscript (st : MonitorState) (p q : Z) :
  UMap.wf (topics st) ->
  endpoints_of q {| nodes := nodes st;
                    topics := snd (UMap.subscript [] p (topics st)) |}
  = endpoints_of q st.
Proof.
  intros Hwf. unfold endpoints_of. simpl.
  rewrite UMapFacts.find_subscript by assumption.
  rewrite UMapFacts.fst_subscript.
  destruct (Z.eqb_spec q p) as [->|Hne]; reflexivity.
Qed.

(** The loop prints, entry after entry, the endpoint list of every entry
    named [arg]; it keeps the keys of [topics] distinct, and afterwards
    [topics] has, besides what it had, an empty list for every prefix named
    [arg] that had none. *)
Lemma info_loop_spec (arg : string) (ns : list (Z * string)) (st : MonitorState) :
  UMap.wf (topics st) ->
  fst (info_loop arg ns (topics st)) = flat_map (records_if_named arg st) ns /\
  UMap.wf (snd (info_loop arg ns (topics st))) /\
  forall q, UMap.find q (snd (info_loop arg ns (topics st))) =
            match UMap.find q (topics st) with
            | Some l => Some l
            | None => if named arg q ns then Some [] else None
            end.
Proof.
  revert st. induction ns as [|[p nm] ns IH]; intros st Hwf.
  - simpl. split; [reflexivity|]. split; [exact Hwf|].
    intros q. now destruct (UMap.find q (topics st)).
  - cbn [info_loop flat_map named existsb fst snd].
    unfold records_if_named at 1. cbn [fst snd].
    destruct (String.eqb nm arg) eqn:Hnm; cbn [andb].
    + pose proof (UMapFacts.wf_subscript [] p (topics st) Hwf) as Hwf1.
      pose proof (UMapFacts.fst_subscript [] p (topics st)) as Hfst.
      pose proof (fun q => UMapFacts.find_subscript [] p q (topics st) Hwf) as Hfind1.
      pose proof (fun q => endpoints_of_subscript st p q Hwf) as Heps.
      destruct (UMap.subscript [] p (topics st)) as [eps tps1].
      cbn [fst snd] in *.
      destruct (IH {| nodes := nodes st; topics := tps1 |} Hwf1) as [IH1 [IH2 IH3]].
      cbn [topics] in IH1, IH2, IH3.
      destruct (info_loop arg ns tps1) as [rest tps2]. cbn [fst snd] in *.
      split; [|split; [exact IH2|]].
      * rewrite IH1. f_equal.
        -- unfold endpoints_of. now rewrite Hfst.
        -- apply flat_map_ext. intros entry. unfold records_if_named.
           now rewrite Heps.
      * intros q. rewrite IH3, Hfind1.
        destruct (Z.eqb_spec q p) as [->|Hne].
        -- rewrite Z.eqb_refl. rewrite Hfst.
           now destruct (UMap.find p (topics st)).
        -- rewrite (Z.eqb_sym p q). destruct (Z.eqb_spec q p); [contradiction|].
           reflexivity.
    + apply IH. exact Hwf.
Qed.

(** C6, amended: for a name [arg] that is a token, that is 1 to 63 bytes
    none of which is white space or NUL, the line [info arg] is scanned into
    the two buffers as it stands, whatever they held before, and the turn
    runs [info arg]; [info arg] prints the endpoint records of every node
    whose display name is [arg], node after node in the iteration order of
    the node mapping and each list in its own order, one line per record;
    when no display name is [arg] it prints nothing.  It writes no file and
    starts no command. *)
Theorem info_prints_all_matches (st : MonitorState) (arg : string) :
  UMap.wf (topics st) ->
  is_token arg = true ->
  (forall fopen_ok cmd0 arg0,
      console_turn fopen_ok ("info " ++ arg ++ newline) cmd0 arg0 st
      = Continue "info" arg (info_cmd arg st)) /\
  out_stdout (info_cmd arg st)
  = map info_line (flat_map (records_if_named arg st) (nodes st)) /\
  ((forall entry, In entry (nodes st) -> snd entry <> arg) ->
   out_stdout (info_cmd arg st) = []) /\
  out_file (info_cmd arg st) = None /\
  out_system (info_cmd arg st) = [].
Proof.
  intros Hwf Htok.
  split; [intros f cmd0 arg0; now apply console_turn_info|].
  destruct (info_loop_spec arg (nodes st) st Hwf) as [Hfst _].
  unfold info_cmd. destruct (info_loop arg (nodes st) (topics st)) as [printed tps].
  cbn [fst] in Hfst. cbn [out_stdout out_file out_system]. subst printed.
  split; [reflexivity|]. split; [|now split].
  intros Hnone. replace (flat_map (records_if_named arg st) (nodes st)) with
    (@nil EndpointInfo); [reflexivity|].
  symmetry. induction (nodes st) as [|entry ns IH]; [reflexivity|].
  simpl. rewrite IH by (intros e He; apply Hnone; now right).
  unfold records_if_named.
  destruct (String.eqb_spec (snd entry) arg) as [E|_]; [|reflexivity].
  exfalso. apply (Hnone entry); [now left | exact E].
Qed.

(** C10, amended: when a node is named [arg], [arg] is a token (1 to 63
    bytes, none of them white space or NUL) and the node has no endpoint
    list, the line [info arg] runs [info arg], which leaves the store with an
    empty list under that node's prefix: the query writes to the endpoint
    mapping.  The node mapping is not touched. *)
Theorem info_inserts_empty_list (st : MonitorState) (arg : string) (p : Z) :
  UMap.wf (topics st) ->
  is_token arg = true ->
  In (p, arg) (nodes st) ->
  UMap.find p (topics st) = None ->
  (forall fopen_ok cmd0 arg0,
      console_turn fopen_ok ("info " ++ arg ++ newline) cmd0 arg0 st
      = Continue "info" arg (info_cmd arg st)) /\
  UMap.find p (topics (out_state (info_cmd arg st))) = Some [] /\
  In p (UMap.keys (topics (out_state (info_cmd arg st)))) /\
  out_state (info_cmd arg st) <> st /\
  nodes (out_state (info_cmd arg st)) = nodes st.
Proof.
  intros Hwf Htok Hin Hnone.
  split; [intros f cmd0 arg0; now apply console_turn_info|].
  destruct (info_loop_spec arg (nodes st) st Hwf) as [_ [_ Hfind]].
  unfold info_cmd. destruct (info_loop arg (nodes st) (topics st)) as [printed tps].
  cbn [snd] in Hfind. cbn [out_state topics nodes].
  assert (Hp : UMap.find p tps = Some []).
  { rewrite Hfind, Hnone. replace (named arg p (nodes st)) with true; [reflexivity|].
    symmetry. apply existsb_exists. exists (p, arg). split; [exact Hin|].
    simpl. now rewrite String.eqb_refl, Z.eqb_refl. }
  split; [exact Hp|]. split.
  - eapply UMapFacts.in_keys, UMapFacts.find_some_in, Hp.
  - split; [|reflexivity]. intros E. rewrite <- E in Hnone. simpl in Hnone. congruence.
Qed.

End InfoCommand.

(** C6 as stated fails on [twins_state], the store after two node and two
    endpoint announcements: two nodes are named cam, and [info cam] prints
    the records of both, which is neither the list of the first one alone
    nor that of the second. *)
Lemma info_prints_both_twins :
  twins_state
  = @endpoint_announcements UMap.append_order
      [{| endpoint_guid := mk_guid 0xAA; msg_topic := "left"; type := Writer |};
       {| endpoint_guid := mk_guid 0xBB; msg_topic := "right"; type := Writer |}]
      (@node_announcements UMap.append_order
         [{| guid := mk_guid 0xAA; name := "cam" |};
          {| guid := mk_guid 0xBB; name := "cam" |}]
         initial_state) /\
  out_stdout (@info_cmd UMap.append_order "cam" twins_state)
  = [info_line {| topic := "left"; is_pub := true |};
     info_line {| topic := "right"; is_pub := true |}] /\
  out_stdout (@info_cmd UMap.append_order "cam" twins_state)
  <> map info_line (endpoints_of 0xAA twins_state) /\
  out_stdout (@info_cmd UMap.append_order "cam" twins_state)
  <> map info_line (endpoints_of 0xBB twins_state).
Proof.
  split; [reflexivity|].
  split; [reflexivity|]. split; intros H; vm_compute in H; discriminate.
Qed.

(** On [sensor_state], info sensor1 prints both records of the node. *)
Lemma info_prints_all_matches_witness :
  UMap.wf (topics sensor_state) /\
  is_token "sensor1" = true /\
  out_stdout (@info_cmd UMap.append_order "sensor1" sensor_state)
  = [info_line {| topic := "imu"; is_pub := true |};
     info_line {| topic := "cmd"; is_pub := false |}].
Proof.
  assert (Hwf : UMap.wf (topics sensor_state)).
  { unfold UMap.wf. simpl. constructor; [intros [] | constructor]. }
  split; [exact Hwf|]. split; [reflexivity|].
  destruct (@info_prints_all_matches UMap.append_order sensor_state "sensor1" Hwf
              eq_refl) as [_ [H _]].
  rewrite H. reflexivity.
Defined.

(** On [silent_state], info sensor1 leaves an empty list under 0xAA. *)
Lemma info_inserts_empty_list_witness :
  UMap.wf (topics silent_state) /\
  is_token "sensor1" = true /\
  In (0xAA, "sensor1") (nodes silent_state) /\
  UMap.find 0xAA (topics silent_state) = None /\
  UMap.find 0xAA (topics (out_state (@info_cmd UMap.append_order "sensor1" silent_state)))
  = Some [].
Proof.
  assert (Hwf : UMap.wf (topics silent_state)) by constructor.
  split; [exact Hwf|]. split; [reflexivity|]. split; [now left|].
  split; [reflexivity|].
  apply (@info_inserts_empty_list UMap.append_order silent_state "sensor1" 0xAA Hwf
           eq_refl).
  - now left.
  - reflexivity.
Defined.

(** C10 as stated fails on [blank_state], the store after one node
    announcement: the node 0xAA is named my node and has no endpoint list,
    but the scan of the line info my node stops at the blank, [arg] is my,
    no node is named that, and the store stays as it was: nothing is
    inserted. *)
Lemma info_blank_name_inserts_nothing :
  blank_state
  = @node_upsert UMap.append_order
      {| guid := mk_guid 0xAA; name := "my node" |} initial_state /\
  In (0xAA, "my node") (nodes blank_state) /\
  UMap.find 0xAA (topics blank_state) = None /\
  @console_turn UMap.append_order true ("info my node" ++ newline)
    EmptyString EmptyString blank_state
  = Continue "info" "my" (no_effect blank_state) /\
  ~ (exists o cmd arg,
        @console_turn UMap.append_order true ("info my node" ++ newline)
          EmptyString EmptyString blank_state
        = Continue cmd arg o /\
        out_state o <> blank_state).
Proof.
  split; [reflexivity|].
  split; [now left|]. split; [reflexivity|]. split; [reflexivity|].
  intros [o [cmd [arg [H Hne]]]]. vm_compute in H. injection H as _ _ <-.
  apply Hne. reflexivity.
Qed.

(** ** Discarded datagrams *)

Lemma accepts_malformed (tag : ascii) (data : string) :
  malformed tag data -> accepts tag data = false.
Proof.
  unfold malformed, accepts. intros [Hlen|Htag].
  - replace (14 <=? Z.of_nat (String.length data)) with false; [reflexivity|].
    symmetry. apply Z.leb_gt. lia.
  - destruct (String.get 0 data) as [c|]; [|apply andb_false_r].
    destruct (Ascii.eqb_spec c tag) as [->|_]; [congruence | apply andb_false_r].
Qed.

Lemma accepts_true (tag : ascii) (data : string) :
  accepts tag data = true ->
  (14 <= String.length data)%nat /\ String.get 0 data = Some tag.
Proof.
  unfold accepts. rewrite andb_true_iff, Z.leb_le. intros [Hlen Htag]. split; [lia|].
  destruct (String.get 0 data) as [c|]; [|discriminate].
  apply Ascii.eqb_eq in Htag. now subst.
Qed.

Section Discard.

Context {order : UMap.HashOrder}.
Variable RNDP_deserialize : string -> RNDPMessage.
Variable REDP_deserialize : string -> REDPMessage.

(** C7: a datagram of fewer than 14 bytes, or whose first byte is not the
    tag the listener expects ('N' for the node listener, 'E' for the
    endpoint listener), leaves the store exactly as it was, in either
    listener; the loop goes on with the next datagram and nothing else
    happens (a listener's turn yields a store and nothing more). *)
Theorem malformed_datagram_dropped (data_n data_e : string) (rest : list string)
  (st : MonitorState) :
  malformed "N"%char data_n ->
  malformed "E"%char data_e ->
  task_nodes_step RNDP_deserialize data_n st = st /\
  task_topics_step REDP_deserialize data_e st = st /\
  task_nodes RNDP_deserialize (data_n :: rest) st
  = task_nodes RNDP_deserialize rest st /\
  task_topics REDP_deserialize (data_e :: rest) st
  = task_topics REDP_deserialize rest st.
Proof.
  intros Hn He.
  assert (H1 : task_nodes_step RNDP_deserialize data_n st = st)
    by (unfold task_nodes_step; now rewrite accepts_malformed).
  assert (H2 : task_topics_step REDP_deserialize data_e st = st)
    by (unfold task_topics_step; now rewrite accepts_malformed).
  split; [exact H1|]. split; [exact H2|].
  unfold task_nodes, task_topics. simpl. now rewrite H1, H2.
Qed.

End Discard.

(** An 11-byte datagram at the node listener and a node announcement at the
    endpoint listener are both discarded. *)
Lemma malformed_datagram_dropped_witness :
  malformed "N"%char "N-too-short" /\
  malformed "E"%char "N: a node announcement" /\
  @task_nodes_step UMap.append_order
    (fun _ => {| guid := mk_guid 0xAA; name := "sensor1" |}) "N-too-short" sensor_state
  = sensor_state /\
  @task_topics_step UMap.append_order
    (fun _ => {| endpoint_guid := mk_guid 0xAA; msg_topic := "imu"; type := Reader |})
    "N: a node announcement" sensor_state
  = sensor_state.
Proof.
  assert (Hn : malformed "N"%char "N-too-short") by (left; simpl; lia).
  assert (He : malformed "E"%char "N: a node announcement")
    by (right; simpl; discriminate).
  split; [exact Hn|]. split; [exact He|].
  destruct (@malformed_datagram_dropped UMap.append_order
              (fun _ => {| guid := mk_guid 0xAA; name := "sensor1" |})
              (fun _ => {| endpoint_guid := mk_guid 0xAA; msg_topic := "imu";
                           type := Reader |})
              "N-too-short" "N: a node announcement" [] sensor_state Hn He)
    as [H1 [H2 _]].
  split; [exact H1 | exact H2].
Defined.

(** ** The listeners under every interleaving *)

Lemma skipn_nth_error {A : Type} (l : list A) (i : nat) (x : A) :
  nth_error l i = Some x -> skipn i l = x :: skipn (S i) l.
Proof.
  revert i. induction l as [|y l IH]; intros [|i]; simpl; try discriminate.
  - now intros [= ->].
  - intros H. now apply IH.
Qed.

Lemma skipn_nth_error_none {A : Type} (l : list A) (i : nat) :
  nth_error l i = None -> skipn i l = [].
Proof. intros H. apply skipn_all2. now apply nth_error_None. Qed.

Section Interleaving.

Context {order : UMap.HashOrder}.
Variable RNDP_deserialize : string -> RNDPMessage.
Variable REDP_deserialize : string -> REDPMessage.

Local Arguments accepts : simpl never.

Local Abbreviation node_step' := (node_step RNDP_deserialize).
Local Abbreviation endpoint_step' := (endpoint_step REDP_deserialize).
Local Abbreviation step' := (step RNDP_deserialize REDP_deserialize).
Local Abbreviation run' := (run RNDP_deserialize REDP_deserialize).

(** *** Each listener works on its own mapping *)

Lemma task_nodes_topics inbox st :
  topics (task_nodes RNDP_deserialize inbox st) = topics st.
Proof.
  rewrite task_nodes_decoded. apply node_announcements_topics.
Qed.

Lemma task_topics_nodes inbox st :
  nodes (task_topics REDP_deserialize inbox st) = nodes st.
Proof.
  revert st. induction inbox as [|d inbox IH]; intros st; [reflexivity|].
  unfold task_topics in *. simpl. rewrite IH. unfold task_topics_step.
  destruct (accepts "E"%char d); [apply endpoint_upsert_nodes | reflexivity].
Qed.

Lemma task_nodes_frame inbox st st' :
  nodes st = nodes st' ->
  nodes (task_nodes RNDP_deserialize inbox st)
  = nodes (task_nodes RNDP_deserialize inbox st').
Proof.
  revert st st'. induction inbox as [|d inbox IH]; intros st st' H; [exact H|].
  unfold task_nodes in *. simpl. apply IH. unfold task_nodes_step.
  destruct (accepts "N"%char d); [|exact H]. simpl. now rewrite H.
Qed.

Lemma endpoint_upsert_frame m st st' :
  topics st = topics st' ->
  topics (endpoint_upsert m st) = topics (endpoint_upsert m st').
Proof.
  intros H. unfold endpoint_upsert. rewrite H.
  destruct (UMap.subscript [] (get_prefix (endpoint_guid m)) (topics st')) as [l tps].
  now destruct (negb _).
Qed.

Lemma task_topics_frame inbox st st' :
  topics st = topics st' ->
  topics (task_topics REDP_deserialize inbox st)
  = topics (task_topics REDP_deserialize inbox st').
Proof.
  revert st st'. induction inbox as [|d inbox IH]; intros st st' H; [exact H|].
  unfold task_topics in *. simpl. apply IH. unfold task_topics_step.
  destruct (accepts "E"%char d); [now apply endpoint_upsert_frame | exact H].
Qed.

(** *** A step of one listener and what the other has ahead *)

Lemma node_step_other c :
  topics (store (node_step' c)) = topics (store c) /\
  ep_pc (node_step' c) = ep_pc c /\
  ep_inbox (node_step' c) = ep_inbox c.
Proof.
  unfold node_step. destruct (node_pc c); [destruct (node_inbox c) | destruct (mtx c) | |];
    now repeat split.
Qed.

Lemma endpoint_step_other c :
  nodes (store (endpoint_step' c)) = nodes (store c) /\
  node_pc (endpoint_step' c) = node_pc c /\
  node_inbox (endpoint_step' c) = node_inbox c.
Proof.
  unfold endpoint_step.
  destruct (ep_pc c) as [|m|m|m i found|m found|];
    [destruct (ep_inbox c) | destruct (mtx c) | |
     destruct (nth_error (list_ref m (store c)) i) | destruct (negb found) |];
    now repeat split.
Qed.

Lemma node_step_nodes_ahead c :
  nodes_ahead RNDP_deserialize (node_step' c) = nodes_ahead RNDP_deserialize c.
Proof.
  unfold nodes_ahead, node_step.
  destruct (node_pc c) as [|m|m|] eqn:Hpc.
  - destruct (node_inbox c) as [|d rest] eqn:Hin; simpl.
    + now rewrite Hpc, Hin.
    + unfold task_nodes. simpl. unfold task_nodes_step.
      now destruct (accepts "N"%char d).
  - destruct (mtx c); simpl; [now rewrite Hpc | reflexivity].
  - reflexivity.
  - reflexivity.
Qed.

Lemma endpoint_step_wf c :
  UMap.wf (topics (store c)) -> UMap.wf (topics (store (endpoint_step' c))).
Proof.
  intros Hwf. unfold endpoint_step.
  destruct (ep_pc c) as [|m|m|m i found|m found|]; simpl.
  - now destruct (ep_inbox c).
  - now destruct (mtx c).
  - now apply UMapFacts.wf_subscript.
  - now destruct (nth_error (list_ref m (store c)) i).
  - destruct (negb found); simpl; [now apply UMapFacts.wf_store | exact Hwf].
  - exact Hwf.
Qed.

Lemma lookup_then_scan m tps :
  UMap.wf tps ->
  finish_scan m 0 false
    (on_topics (snd (UMap.subscript [] (get_prefix (endpoint_guid m)) tps)))
  = endpoint_upsert m (on_topics tps).
Proof.
  intros Hwf. unfold finish_scan, append_if_absent, endpoint_upsert, list_ref.
  pose proof (UMapFacts.find_subscript [] (get_prefix (endpoint_guid m))
                (get_prefix (endpoint_guid m)) tps Hwf) as Hfind.
  rewrite Z.eqb_refl in Hfind. simpl topics.
  destruct (UMap.subscript [] (get_prefix (endpoint_guid m)) tps) as [l tps1].
  simpl in Hfind. simpl. rewrite Hfind. reflexivity.
Qed.

Lemma endpoint_step_topics_ahead c :
  UMap.wf (topics (store c)) ->
  topics_ahead REDP_deserialize (endpoint_step' c) = topics_ahead REDP_deserialize c.
Proof.
  intros Hwf. unfold topics_ahead, endpoint_step.
  destruct (ep_pc c) as [|m|m|m i found|m found|] eqn:Hpc.
  - destruct (ep_inbox c) as [|d rest] eqn:Hin; simpl.
    + now rewrite Hpc, Hin.
    + unfold task_topics. simpl. unfold task_topics_step.
      now destruct (accepts "E"%char d).
  - destruct (mtx c); simpl; [now rewrite Hpc | reflexivity].
  - simpl. now rewrite lookup_then_scan.
  - change (list_ref m (store c)) with (list_ref m (on_topics (topics (store c)))).
    destruct (nth_error (list_ref m (on_topics (topics (store c)))) i) as [ep|] eqn:Hnth;
      simpl; unfold finish_scan.
    + now rewrite (skipn_nth_error _ _ _ Hnth).
    + now rewrite (skipn_nth_error_none _ _ Hnth).
  - simpl. unfold append_if_absent. now destruct (negb found).
  - reflexivity.
Qed.

Lemma step_lock_inv t c : lock_inv c -> lock_inv (step' t c).
Proof.
  destruct c as [st m npc nin epc ein].
  unfold lock_inv, step, node_step, endpoint_step, set_ep, node_in_cs, ep_in_cs.
  destruct t, npc, epc, m as [[|]|]; simpl;
    repeat match goal with
           | |- context [accepts ?tag ?d] => destruct (accepts tag d); simpl
           | |- context [nth_error ?l ?i] => destruct (nth_error l i); simpl
           | |- context [match nin with _ => _ end] => destruct nin; simpl
           | |- context [match ein with _ => _ end] => destruct ein; simpl
           end;
    intuition congruence.
Qed.

(** What every step keeps. *)
Lemma step_invariants t c :
  UMap.wf (topics (store c)) -> lock_inv c ->
  UMap.wf (topics (store (step' t c))) /\
  lock_inv (step' t c) /\
  nodes_ahead RNDP_deserialize (step' t c) = nodes_ahead RNDP_deserialize c /\
  topics_ahead REDP_deserialize (step' t c) = topics_ahead REDP_deserialize c.
Proof.
  intros Hwf Hlock. split; [|split; [now apply step_lock_inv|]].
  - destruct t; simpl.
    + destruct (node_step_other c) as [-> _]. exact Hwf.
    + now apply endpoint_step_wf.
  - destruct t; simpl.
    + split; [apply node_step_nodes_ahead|].
      unfold topics_ahead. destruct (node_step_other c) as [-> [-> ->]]. reflexivity.
    + split; [|now apply endpoint_step_topics_ahead].
      unfold nodes_ahead. destruct (endpoint_step_other c) as [-> [-> ->]]. reflexivity.
Qed.

Lemma run_invariants sched c :
  UMap.wf (topics (store c)) -> lock_inv c ->
  UMap.wf (topics (store (run' sched c))) /\
  lock_inv (run' sched c) /\
  nodes_ahead RNDP_deserialize (run' sched c) = nodes_ahead RNDP_deserialize c /\
  topics_ahead REDP_deserialize (run' sched c) = topics_ahead REDP_deserialize c.
Proof.
  revert c. induction sched as [|t sched IH]; intros c Hwf Hlock.
  - now repeat split.
  - destruct (step_invariants t c Hwf Hlock) as [Hwf1 [Hlock1 [Hn1 Ht1]]].
    destruct (IH (step' t c) Hwf1 Hlock1) as [Hwf2 [Hlock2 [Hn2 Ht2]]].
    simpl. repeat split; try assumption; congruence.
Qed.

End Interleaving.

Lemma state_ext (a b : MonitorState) :
  nodes a = nodes b -> topics a = topics b -> a = b.
Proof. destruct a, b. simpl. now intros -> ->. Qed.

Section RunningOut.

Context {order : UMap.HashOrder}.
Variable RNDP_deserialize : string -> RNDPMessage.
Variable REDP_deserialize : string -> REDPMessage.

Local Arguments accepts : simpl never.

Local Abbreviation step' := (step RNDP_deserialize REDP_deserialize).
Local Abbreviation run' := (run RNDP_deserialize REDP_deserialize).

Lemma run_app s1 s2 c : run' (s1 ++ s2) c = run' s2 (run' s1 c).
Proof. unfold run. apply fold_left_app. Qed.

Lemma run_cons t s c : run' (t :: s) c = run' s (step' t c).
Proof. reflexivity. Qed.

(** Lets the scheduled listener execute its next statement. *)
Ltac one_step :=
  rewrite run_cons;
  unfold step at 1, node_step, endpoint_step, set_ep;
  cbn [store mtx node_pc node_inbox ep_pc ep_inbox].

(** *** The node listener on its own *)

Lemma node_unlock_runs_out st m nin epc ein :
  run' [NodeListener]
    {| store := st; mtx := m; node_pc := NUnlock; node_inbox := nin;
       ep_pc := epc; ep_inbox := ein |}
  = {| store := st; mtx := None; node_pc := NRead; node_inbox := nin;
       ep_pc := epc; ep_inbox := ein |}.
Proof. reflexivity. Qed.

Lemma node_write_runs_out st m msg nin epc ein :
  run' [NodeListener; NodeListener]
    {| store := st; mtx := m; node_pc := NWrite msg; node_inbox := nin;
       ep_pc := epc; ep_inbox := ein |}
  = {| store := node_upsert msg st; mtx := None; node_pc := NRead; node_inbox := nin;
       ep_pc := epc; ep_inbox := ein |}.
Proof. reflexivity. Qed.

Lemma node_lock_runs_out st msg nin epc ein :
  run' [NodeListener; NodeListener; NodeListener]
    {| store := st; mtx := None; node_pc := NLock msg; node_inbox := nin;
       ep_pc := epc; ep_inbox := ein |}
  = {| store := node_upsert msg st; mtx := None; node_pc := NRead; node_inbox := nin;
       ep_pc := epc; ep_inbox := ein |}.
Proof. reflexivity. Qed.

Lemma node_inbox_runs_out nin st epc ein :
  exists sched st',
    run' sched
      {| store := st; mtx := None; node_pc := NRead; node_inbox := nin;
         ep_pc := epc; ep_inbox := ein |}
    = {| store := st'; mtx := None; node_pc := NRead; node_inbox := [];
         ep_pc := epc; ep_inbox := ein |}.
Proof.
  revert st. induction nin as [|d rest IH]; intros st.
  - exists [], st. reflexivity.
  - destruct (accepts "N"%char d) eqn:E.
    + destruct (IH (node_upsert (RNDP_deserialize d) st)) as [sched [st' H]].
      exists (NodeListener :: [NodeListener; NodeListener; NodeListener] ++ sched), st'.
      one_step. rewrite E, run_app, node_lock_runs_out. exact H.
    + destruct (IH st) as [sched [st' H]].
      exists (NodeListener :: sched), st'. one_step. rewrite E. exact H.
Qed.

Lemma node_finishes c :
  (node_in_cs c = false -> mtx c = None) ->
  exists sched st',
    run' sched c
    = {| store := st'; mtx := None; node_pc := NRead; node_inbox := [];
         ep_pc := ep_pc c; ep_inbox := ep_inbox c |}.
Proof.
  destruct c as [st m npc nin epc ein]. unfold node_in_cs. simpl. intros Hm.
  destruct npc as [|msg|msg|].
  - rewrite (Hm eq_refl). apply node_inbox_runs_out.
  - rewrite (Hm eq_refl).
    destruct (node_inbox_runs_out nin (node_upsert msg st) epc ein) as [sched [st' H]].
    exists ([NodeListener; NodeListener; NodeListener] ++ sched), st'.
    now rewrite run_app, node_lock_runs_out.
  - destruct (node_inbox_runs_out nin (node_upsert msg st) epc ein) as [sched [st' H]].
    exists ([NodeListener; NodeListener] ++ sched), st'.
    now rewrite run_app, node_write_runs_out.
  - destruct (node_inbox_runs_out nin st epc ein) as [sched [st' H]].
    exists ([NodeListener] ++ sched), st'.
    now rewrite run_app, node_unlock_runs_out.
Qed.

(** *** The endpoint listener on its own *)

Lemma ep_append_runs_out st m npc nin msg found ein :
  exists st',
    run' [EndpointListener; EndpointListener]
      {| store := st; mtx := m; node_pc := npc; node_inbox := nin;
         ep_pc := EAppend msg found; ep_inbox := ein |}
    = {| store := st'; mtx := None; node_pc := npc; node_inbox := nin;
         ep_pc := ERead; ep_inbox := ein |}.
Proof. eexists. reflexivity. Qed.

Lemma ep_scan_runs_out k :
  forall i found st m npc nin msg ein,
    (List.length (list_ref msg st) - i = k)%nat ->
    exists found',
      run' (repeat EndpointListener (S k))
        {| store := st; mtx := m; node_pc := npc; node_inbox := nin;
           ep_pc := EScan msg i found; ep_inbox := ein |}
      = {| store := st; mtx := m; node_pc := npc; node_inbox := nin;
           ep_pc := EAppend msg found'; ep_inbox := ein |}.
Proof.
  induction k as [|k IH]; intros i found st m npc nin msg ein Hlen.
  - exists found. cbn [repeat]. one_step.
    replace (nth_error (list_ref msg st) i) with (@None EndpointInfo); [reflexivity|].
    symmetry. apply nth_error_None. lia.
  - destruct (nth_error (list_ref msg st) i) as [ep|] eqn:Hnth.
    + destruct (IH (S i)
                  (if String.eqb (topic ep) (msg_topic msg)
                      && Bool.eqb (is_pub ep) (pub_of msg)
                   then true else found)
                  st m npc nin msg ein) as [found' H]; [lia|].
      exists found'. change (repeat EndpointListener (S (S k)))
        with (EndpointListener :: repeat EndpointListener (S k)).
      one_step. rewrite Hnth. exact H.
    + apply nth_error_None in Hnth. lia.
Qed.

Lemma ep_scan_finishes st m npc nin msg i found ein :
  exists sched st',
    run' sched
      {| store := st; mtx := m; node_pc := npc; node_inbox := nin;
         ep_pc := EScan msg i found; ep_inbox := ein |}
    = {| store := st'; mtx := None; node_pc := npc; node_inbox := nin;
         ep_pc := ERead; ep_inbox := ein |}.
Proof.
  destruct (ep_scan_runs_out (List.length (list_ref msg st) - i) i found st m npc nin
              msg ein eq_refl) as [found' Hscan].
  destruct (ep_append_runs_out st m npc nin msg found' ein) as [st' Happ].
  exists (repeat EndpointListener (S (List.length (list_ref msg st) - i))
          ++ [EndpointListener; EndpointListener]), st'.
  now rewrite run_app, Hscan.
Qed.

Lemma ep_lookup_finishes st m npc nin msg ein :
  exists sched st',
    run' sched
      {| store := st; mtx := m; node_pc := npc; node_inbox := nin;
         ep_pc := ELookup msg; ep_inbox := ein |}
    = {| store := st'; mtx := None; node_pc := npc; node_inbox := nin;
         ep_pc := ERead; ep_inbox := ein |}.
Proof.
  destruct (ep_scan_finishes
              {| nodes := nodes st;
                 topics := snd (UMap.subscript [] (get_prefix (endpoint_guid msg))
                                  (topics st)) |}
              m npc nin msg 0%nat false ein) as [sched [st' H]].
  exists (EndpointListener :: sched), st'. one_step. exact H.
Qed.

Lemma ep_inbox_runs_out ein st npc nin :
  exists sched st',
    run' sched
      {| store := st; mtx := None; node_pc := npc; node_inbox := nin;
         ep_pc := ERead; ep_inbox := ein |}
    = {| store := st'; mtx := None; node_pc := npc; node_inbox := nin;
         ep_pc := ERead; ep_inbox := [] |}.
Proof.
  revert st. induction ein as [|d rest IH]; intros st.
  - exists [], st. reflexivity.
  - destruct (accepts "E"%char d) eqn:E.
    + destruct (ep_lookup_finishes st (Some EndpointListener) npc nin
                  (REDP_deserialize d) rest) as [s1 [st1 H1]].
      destruct (IH st1) as [s2 [st2 H2]].
      exists (EndpointListener :: EndpointListener :: s1 ++ s2), st2.
      one_step. rewrite E. one_step. now rewrite run_app, H1.
    + destruct (IH st) as [sched [st' H]].
      exists (EndpointListener :: sched), st'. one_step. rewrite E. exact H.
Qed.

Lemma endpoint_finishes c :
  (ep_in_cs c = false -> mtx c = None) ->
  exists sched st',
    run' sched c
    = {| store := st'; mtx := None; node_pc := node_pc c; node_inbox := node_inbox c;
         ep_pc := ERead; ep_inbox := [] |}.
Proof.
  destruct c as [st m npc nin epc ein]. unfold ep_in_cs. simpl. intros Hm.
  assert (Hthen : forall s1 st1,
             run' s1 {| store := st; mtx := m; node_pc := npc; node_inbox := nin;
                        ep_pc := epc; ep_inbox := ein |}
             = {| store := st1; mtx := None; node_pc := npc; node_inbox := nin;
                  ep_pc := ERead; ep_inbox := ein |} ->
             exists sched st',
               run' sched {| store := st; mtx := m; node_pc := npc; node_inbox := nin;
                             ep_pc := epc; ep_inbox := ein |}
               = {| store := st'; mtx := None; node_pc := npc; node_inbox := nin;
                    ep_pc := ERead; ep_inbox := [] |}).
  { intros s1 st1 H1. destruct (ep_inbox_runs_out ein st1 npc nin) as [s2 [st2 H2]].
    exists (s1 ++ s2), st2. now rewrite run_app, H1. }
  destruct epc as [|msg|msg|msg i found|msg found|].
  - apply (Hthen [] st). now rewrite (Hm eq_refl).
  - destruct (ep_lookup_finishes st (Some EndpointListener) npc nin msg ein)
      as [s1 [st1 H1]].
    apply (Hthen (EndpointListener :: s1) st1). rewrite (Hm eq_refl). one_step. exact H1.
  - destruct (ep_lookup_finishes st m npc nin msg ein) as [s1 [st1 H1]]. eauto.
  - destruct (ep_scan_finishes st m npc nin msg i found ein) as [s1 [st1 H1]]. eauto.
  - destruct (ep_append_runs_out st m npc nin msg found ein) as [st1 H1]. eauto.
  - apply (Hthen [EndpointListener] st). reflexivity.
Qed.

(** From every configuration that respects the lock discipline some
    schedule lets both listeners run out of datagrams. *)
Lemma runs_out c : lock_inv c -> exists sched, finished (run' sched c) = true.
Proof.
  intros Hlock.
  assert (Hn : ep_in_cs c = false ->
               (node_in_cs c = false -> mtx c = None)).
  { unfold lock_inv in Hlock. destruct (mtx c) as [[|]|]; intuition congruence. }
  assert (He : node_in_cs c = false ->
               (ep_in_cs c = false -> mtx c = None)).
  { unfold lock_inv in Hlock. destruct (mtx c) as [[|]|]; intuition congruence. }
  destruct (ep_in_cs c) eqn:Hep.
  - assert (Hnode : node_in_cs c = false).
    { unfold lock_inv in Hlock. destruct (mtx c) as [[|]|]; intuition congruence. }
    destruct (endpoint_finishes c) as [s1 [st1 H1]]; [intros; congruence|].
    destruct (node_finishes (run' s1 c)) as [s2 [st2 H2]]; [now rewrite H1|].
    exists (s1 ++ s2). rewrite run_app, H2, H1. reflexivity.
  - destruct (node_finishes c (Hn eq_refl)) as [s1 [st1 H1]].
    destruct (endpoint_finishes (run' s1 c)) as [s2 [st2 H2]]; [now rewrite H1|].
    exists (s1 ++ s2). rewrite run_app, H2, H1. reflexivity.
Qed.

End RunningOut.

Section InterleavingClaim.

Context {order : UMap.HashOrder}.
Variable RNDP_deserialize : string -> RNDPMessage.
Variable REDP_deserialize : string -> REDPMessage.

Local Abbreviation step' := (step RNDP_deserialize REDP_deserialize).
Local Abbreviation run' := (run RNDP_deserialize REDP_deserialize).

Lemma start_invariants st0 node_in ep_in :
  lock_inv (start st0 node_in ep_in) /\
  nodes_ahead RNDP_deserialize (start st0 node_in ep_in)
  = nodes (task_nodes RNDP_deserialize node_in st0) /\
  topics_ahead REDP_deserialize (start st0 node_in ep_in)
  = topics (task_topics REDP_deserialize ep_in st0).
Proof.
  split; [now split|]. split.
  - unfold nodes_ahead. simpl. now apply task_nodes_frame.
  - unfold topics_ahead. simpl. now apply task_topics_frame.
Qed.

Lemma finished_ahead c :
  finished c = true ->
  nodes_ahead RNDP_deserialize c = nodes (store c) /\
  topics_ahead REDP_deserialize c = topics (store c).
Proof.
  unfold finished, nodes_ahead, topics_ahead.
  destruct (node_pc c); try discriminate.
  destruct (node_inbox c); try discriminate.
  destruct (ep_pc c); try discriminate.
  destruct (ep_inbox c); try discriminate.
  now split.
Qed.

Lemma node_step_outside_cs c :
  node_in_cs c = false -> mtx c <> None -> store (step' NodeListener c) = store c.
Proof.
  unfold node_in_cs, step, node_step.
  destruct (node_pc c); try discriminate; intros _ Hm.
  - now destruct (node_inbox c).
  - now destruct (mtx c).
Qed.

(** C9: under every schedule of the two listeners' statements the mutex is
    held by exactly the listener inside its critical section; while the
    endpoint listener is between its lookup and its unlock it holds the
    mutex throughout and a step of the node listener cannot write to the
    store; when both listeners have run out of datagrams the store is the
    one the two loops produce one after the other, in either order, which
    is the result of the decoded announcements; and every schedule can be
    continued to such an end. *)
Theorem listeners_interleave (st0 : MonitorState) (node_in ep_in : list string)
  (sched : list Tid) :
  UMap.wf (topics st0) ->
  lock_inv (run' sched (start st0 node_in ep_in)) /\
  (ep_in_cs (run' sched (start st0 node_in ep_in)) = true ->
   mtx (run' sched (start st0 node_in ep_in)) = Some EndpointListener /\
   node_in_cs (run' sched (start st0 node_in ep_in)) = false /\
   store (step' NodeListener (run' sched (start st0 node_in ep_in)))
   = store (run' sched (start st0 node_in ep_in))) /\
  (finished (run' sched (start st0 node_in ep_in)) = true ->
   store (run' sched (start st0 node_in ep_in))
   = task_topics REDP_deserialize ep_in (task_nodes RNDP_deserialize node_in st0) /\
   store (run' sched (start st0 node_in ep_in))
   = task_nodes RNDP_deserialize node_in (task_topics REDP_deserialize ep_in st0) /\
   store (run' sched (start st0 node_in ep_in))
   = endpoint_announcements
       (map REDP_deserialize (filter (accepts "E"%char) ep_in))
       (node_announcements
          (map RNDP_deserialize (filter (accepts "N"%char) node_in)) st0)) /\
  (exists more,
      finished (run' (sched ++ more) (start st0 node_in ep_in)) = true).
Proof.
  intros Hwf.
  destruct (start_invariants st0 node_in ep_in) as [Hlock0 [Hn0 Ht0]].
  destruct (run_invariants RNDP_deserialize REDP_deserialize sched
              (start st0 node_in ep_in) Hwf Hlock0) as [_ [Hlock [Hn Ht]]].
  rewrite Hn0 in Hn. rewrite Ht0 in Ht.
  set (c := run' sched (start st0 node_in ep_in)) in *.
  split; [exact Hlock|]. split; [|split].
  - intros Hcs. unfold lock_inv in Hlock.
    destruct (mtx c) as [[|]|] eqn:Hm; destruct Hlock as [H1 H2]; try congruence.
    split; [reflexivity|]. split; [exact H1|].
    apply node_step_outside_cs; [exact H1 | congruence].
  - intros Hfin. destruct (finished_ahead c Hfin) as [Hn' Ht'].
    rewrite Hn' in Hn. rewrite Ht' in Ht.
    assert (E1 : store c = task_topics REDP_deserialize ep_in
                             (task_nodes RNDP_deserialize node_in st0)).
    { apply state_ext.
      - now rewrite task_topics_nodes.
      - rewrite Ht. apply task_topics_frame. symmetry. apply task_nodes_topics. }
    split; [exact E1|]. split.
    + apply state_ext.
      * rewrite Hn. apply task_nodes_frame. symmetry. apply task_topics_nodes.
      * now rewrite task_nodes_topics.
    + rewrite E1. now rewrite task_topics_decoded, task_nodes_decoded.
  - destruct (runs_out RNDP_deserialize REDP_deserialize c Hlock) as [more Hmore].
    exists more. now rewrite run_app.
Qed.

End InterleavingClaim.

(** One datagram per listener, the node listener waiting for the mutex while
    the endpoint listener holds it: both announcements end up in the store. *)
Lemma listeners_interleave_witness :
  UMap.wf (topics initial_state) /\
  finished
    (@run UMap.append_order
       (fun _ => {| guid := mk_guid 0xAA; name := "sensor1" |})
       (fun _ => {| endpoint_guid := mk_guid 0xAA; msg_topic := "imu"; type := Writer |})
       [EndpointListener; NodeListener; EndpointListener; NodeListener;
        EndpointListener; NodeListener; NodeListener; EndpointListener;
        EndpointListener; EndpointListener; NodeListener; NodeListener;
        NodeListener]
       (start initial_state ["N: sensor1 is here"] ["E: sensor1 writes imu"]))
  = true /\
  store
    (@run UMap.append_order
       (fun _ => {| guid := mk_guid 0xAA; name := "sensor1" |})
       (fun _ => {| endpoint_guid := mk_guid 0xAA; msg_topic := "imu"; type := Writer |})
       [EndpointListener; NodeListener; EndpointListener; NodeListener;
        EndpointListener; NodeListener; NodeListener; EndpointListener;
        EndpointListener; EndpointListener; NodeListener; NodeListener;
        NodeListener]
       (start initial_state ["N: sensor1 is here"] ["E: sensor1 writes imu"]))
  = {| nodes := [(0xAA, "sensor1")];
       topics := [(0xAA, [{| topic := "imu"; is_pub := true |}])] |}.
Proof.
  assert (Hwf : UMap.wf (topics initial_state)) by constructor.
  split; [exact Hwf|].
  assert (Hfin : finished
    (@run UMap.append_order
       (fun _ => {| guid := mk_guid 0xAA; name := "sensor1" |})
       (fun _ => {| endpoint_guid := mk_guid 0xAA; msg_topic := "imu"; type := Writer |})
       [EndpointListener; NodeListener; EndpointListener; NodeListener;
        EndpointListener; NodeListener; NodeListener; EndpointListener;
        EndpointListener; EndpointListener; NodeListener; NodeListener;
        NodeListener]
       (start initial_state ["N: sensor1 is here"] ["E: sensor1 writes imu"]))
    = true) by reflexivity.
  split; [exact Hfin|].
  destruct (@listeners_interleave UMap.append_order
              (fun _ => {| guid := mk_guid 0xAA; name := "sensor1" |})
              (fun _ => {| endpoint_guid := mk_guid 0xAA; msg_topic := "imu";
                           type := Writer |})
              initial_state ["N: sensor1 is here"] ["E: sensor1 writes imu"]
              [EndpointListener; NodeListener; EndpointListener; NodeListener;
               EndpointListener; NodeListener; NodeListener; EndpointListener;
               EndpointListener; EndpointListener; NodeListener; NodeListener;
               NodeListener]
              Hwf) as [_ [_ [Hstore _]]].
  destruct (Hstore Hfin) as [E _]. rewrite E. reflexivity.
Defined.

(** ** Every operation keeps the keys distinct *)
Section StoreWf.

Context {order : UMap.HashOrder}.

Lemma initial_state_wf : store_wf initial_state.
Proof. split; constructor. Qed.

Lemma node_upsert_store_wf m st : store_wf st -> store_wf (node_upsert m st).
Proof.
  intros [Hn Ht]. split; [|exact Ht]. simpl. now apply UMapFacts.wf_assign.
Qed.

Lemma endpoint_upsert_store_wf m st : store_wf st -> store_wf (endpoint_upsert m st).
Proof.
  intros [Hn Ht]. split; [|now apply endpoint_upsert_wf].
  now rewrite endpoint_upsert_nodes.
Qed.

Lemma command_store_wf fopen_ok n cmd arg st o :
  store_wf st -> command fopen_ok n cmd arg st = Some o -> store_wf (out_state o).
Proof.
  intros Hwf. unfold command.
  destruct (n <=? 0); [now intros [= <-]|].
  destruct (String.eqb cmd "list"); [now intros [= <-]|].
  destruct (String.eqb cmd "info" && (n =? 2)).
  - intros [= <-]. destruct Hwf as [Hn Ht].
    destruct (info_loop_spec arg (nodes st) st Ht) as [_ [Hwf' _]].
    unfold info_cmd. destruct (info_loop arg (nodes st) (topics st)) as [printed tps].
    split; [exact Hn | exact Hwf'].
  - destruct (String.eqb cmd "graph").
    + intros [= <-]. now rewrite generate_graph_state.
    + destruct (String.eqb cmd "quit"); [discriminate | now intros [= <-]].
Qed.

End StoreWf.

(** ** The scenarios of the specification *)

(** A node announcement for 0xAA named sensor1, then an endpoint
    announcement of the same prefix writing imu: [list] prints sensor1 and
    [info sensor1] prints the Publisher record. *)
Example scenario_sensor1 :
  out_stdout
    (@list_cmd
       (@endpoint_upsert UMap.append_order
          {| endpoint_guid := mk_guid 0xAA; msg_topic := "imu"; type := Writer |}
          (@node_upsert UMap.append_order
             {| guid := mk_guid 0xAA; name := "sensor1" |} initial_state)))
  = [list_line "sensor1"] /\
  out_stdout
    (@info_cmd UMap.append_order "sensor1"
       (@endpoint_upsert UMap.append_order
          {| endpoint_guid := mk_guid 0xAA; msg_topic := "imu"; type := Writer |}
          (@node_upsert UMap.append_order
             {| guid := mk_guid 0xAA; name := "sensor1" |} initial_state)))
  = [info_line {| topic := "imu"; is_pub := true |}].
Proof. split; reflexivity. Qed.

(** The same endpoint announcement twice: one record. *)
Example scenario_repeated_announcement :
  endpoints_of 0xAA
    (@endpoint_announcements UMap.append_order
       [{| endpoint_guid := mk_guid 0xAA; msg_topic := "imu"; type := Writer |};
        {| endpoint_guid := mk_guid 0xAA; msg_topic := "imu"; type := Writer |}]
       initial_state)
  = [{| topic := "imu"; is_pub := true |}].
Proof. reflexivity. Qed.

(** Guids that differ above bit 47 only are one node. *)
Example scenario_same_prefix :
  nodes
    (@node_announcements UMap.append_order
       [{| guid := mk_guid 0x0001000000000AAA; name := "old" |};
        {| guid := mk_guid 0x0002000000000AAA; name := "new" |}]
       initial_state)
  = [(0xAAA, "new")].
Proof. reflexivity. Qed.

(** * Further properties of the code *)

(** ** get_prefix and the node mapping *)

(** The mask keeps bits 0 to 47 of [full] and clears the rest: the prefix is
    [full] modulo 2^48, masking twice changes nothing, and two guids have
    the same prefix exactly when they agree on their low 48 bits. *)
Theorem get_prefix_low_bits (g g' : Guid) :
  get_prefix g = full g mod 2 ^ 48 /\
  get_prefix (mk_guid (get_prefix g)) = get_prefix g /\
  (get_prefix g = get_prefix g' <-> full g mod 2 ^ 48 = full g' mod 2 ^ 48) /\
  (forall i, 0 <= i ->
             Z.testbit (get_prefix g) i = (i <? 48) && Z.testbit (full g) i).
Proof.
  assert (Hmod : forall h, get_prefix h = full h mod 2 ^ 48).
  { intros h. unfold get_prefix. change 0xFFFFFFFFFFFF with (Z.ones 48).
    apply Z.land_ones. lia. }
  split; [apply Hmod|]. split.
  - rewrite (Hmod (mk_guid (get_prefix g))). simpl full. rewrite Hmod.
    apply Z.mod_mod. lia.
  - split; [now rewrite !Hmod|].
    intros i Hi. unfold get_prefix. change 0xFFFFFFFFFFFF with (Z.ones 48).
    rewrite Z.land_spec, Z.testbit_ones_nonneg by lia. apply andb_comm.
Qed.

Lemma store_store {V : Type} (k : Z) (v : V) (m : UMap.t V) :
  UMap.store k v (UMap.store k v m) = UMap.store k v m.
Proof.
  induction m as [|[k' v'] m IH]; simpl; [reflexivity|].
  destruct (Z.eqb k k') eqn:E; simpl; rewrite E; [reflexivity | now rewrite IH].
Qed.

Lemma last_name_none (p : Z) (msgs : list RNDPMessage) :
  last_name p msgs = None <-> ~ In p (map (fun m => get_prefix (guid m)) msgs).
Proof.
  induction msgs as [|m msgs IH] using rev_ind.
  - simpl. unfold last_name. simpl. tauto.
  - rewrite last_name_snoc, map_app, in_app_iff. simpl.
    destruct (Z.eqb_spec (get_prefix (guid m)) p) as [E|Hne].
    + split; [discriminate | intros H; exfalso; apply H; right; now left].
    + rewrite IH. tauto.
Qed.

Section NodeMapping.

Context {order : UMap.HashOrder}.

(** An announcement for a prefix that has an entry replaces the name in
    place: the keys stay the same, in the same order.  An announcement for a
    new prefix adds that one key.  Either way the name under the prefix is
    the announced one and no other prefix changes its name. *)
Theorem node_upsert_overwrites (m : RNDPMessage) (st : MonitorState) :
  UMap.wf (nodes st) ->
  (In (get_prefix (guid m)) (UMap.keys (nodes st)) ->
   UMap.keys (nodes (node_upsert m st)) = UMap.keys (nodes st)) /\
  (~ In (get_prefix (guid m)) (UMap.keys (nodes st)) ->
   Permutation (UMap.keys (nodes (node_upsert m st)))
               (get_prefix (guid m) :: UMap.keys (nodes st))) /\
  UMap.find (get_prefix (guid m)) (nodes (node_upsert m st)) = Some (name m) /\
  (forall q, q <> get_prefix (guid m) ->
             UMap.find q (nodes (node_upsert m st)) = UMap.find q (nodes st)) /\
  topics (node_upsert m st) = topics st.
Proof.
  intros Hwf. simpl. unfold UMap.assign. rewrite UMapFacts.keys_store.
  split; [|split; [|split; [|split; [|reflexivity]]]].
  - intros Hin. unfold UMap.subscript.
    destruct (UMap.find (get_prefix (guid m)) (nodes st)) eqn:E; [reflexivity|].
    apply UMapFacts.find_none_iff in E. contradiction.
  - intros Hnot. apply UMapFacts.find_none_iff in Hnot.
    rewrite UMapFacts.subscript_absent by assumption. simpl.
    change (get_prefix (guid m) :: UMap.keys (nodes st))
      with (UMap.keys ((get_prefix (guid m), EmptyString) :: nodes st)).
    apply Permutation_map, UMap.place_perm.
  - fold (UMap.assign EmptyString (get_prefix (guid m)) (name m) (nodes st)).
    rewrite UMapFacts.find_assign by assumption. now rewrite Z.eqb_refl.
  - intros q Hq.
    fold (UMap.assign EmptyString (get_prefix (guid m)) (name m) (nodes st)).
    rewrite UMapFacts.find_assign by assumption.
    destruct (Z.eqb_spec q (get_prefix (guid m))); [contradiction | reflexivity].
Qed.

Lemma endpoint_announcements_nodes msgs st :
  nodes (endpoint_announcements msgs st) = nodes st.
Proof.
  revert st. induction msgs as [|m msgs IH]; intros st; [reflexivity|].
  unfold endpoint_announcements in *. simpl. rewrite IH.
  apply endpoint_upsert_nodes.
Qed.

(** [list] prints one line per distinct prefix that a node announcement
    carried, whatever endpoint announcements arrived in between or after;
    the names printed are the latest announced ones. *)
Theorem list_counts_prefixes (msgs : list RNDPMessage) (eps : list REDPMessage) :
  List.length
    (out_stdout (list_cmd (endpoint_announcements eps
                             (node_announcements msgs initial_state))))
  = List.length (announced_prefixes msgs) /\
  (forall line,
      In line (out_stdout (list_cmd (endpoint_announcements eps
                                       (node_announcements msgs initial_state))))
      <-> exists p n, last_name p msgs = Some n /\ line = list_line n) /\
  out_state (list_cmd (endpoint_announcements eps
                         (node_announcements msgs initial_state)))
  = endpoint_announcements eps (node_announcements msgs initial_state).
Proof.
  assert (Hwf0 : UMap.wf (nodes initial_state)) by constructor.
  destruct (node_announcements_find msgs initial_state Hwf0) as [Hwf Hfind].
  unfold list_cmd. cbn [out_stdout out_state].
  rewrite endpoint_announcements_nodes.
  split; [|split; [|reflexivity]].
  - rewrite length_map.
    rewrite <- (length_map fst (nodes (node_announcements msgs initial_state))).
    apply Permutation_length. apply NoDup_Permutation.
    + exact Hwf.
    + apply NoDup_nodup.
    + intros p. unfold announced_prefixes. rewrite nodup_In.
      fold (UMap.keys (nodes (node_announcements msgs initial_state))).
      split.
      * intros Hin. destruct (in_dec Z.eq_dec p
                                (map (fun m => get_prefix (guid m)) msgs))
          as [H|H]; [exact H|].
        apply last_name_none in H.
        assert (Hnone : UMap.find p (nodes (node_announcements msgs initial_state))
                        = None) by (rewrite Hfind, H; reflexivity).
        apply UMapFacts.find_none_iff in Hnone. contradiction.
      * intros Hin.
        destruct (UMap.find p (nodes (node_announcements msgs initial_state)))
          as [n|] eqn:E.
        -- eapply UMapFacts.in_keys, UMapFacts.find_some_in, E.
        -- rewrite Hfind in E. destruct (last_name p msgs) eqn:El; [discriminate|].
           apply last_name_none in El. contradiction.
  - intros line. rewrite in_map_iff. split.
    + intros [[p n] [<- Hin]]. exists p, n. split; [|reflexivity].
      apply UMapFacts.in_find in Hin; [|exact Hwf]. rewrite Hfind in Hin.
      now destruct (last_name p msgs).
    + intros [p [n [Hl ->]]]. exists (p, n). split; [reflexivity|].
      apply UMapFacts.find_some_in. rewrite Hfind, Hl. reflexivity.
Qed.

End NodeMapping.

Lemma node_upsert_overwrites_witness :
  UMap.wf (nodes sensor_state) /\
  UMap.keys (nodes (@node_upsert UMap.append_order
                      {| guid := mk_guid 0x50000000000AA; name := "renamed" |}
                      sensor_state)) = [0xAA]%Z.
Proof.
  assert (Hwf : UMap.wf (nodes sensor_state)).
  { unfold UMap.wf. simpl. constructor; [intros [] | constructor]. }
  split; [exact Hwf|].
  destruct (@node_upsert_overwrites UMap.append_order
              {| guid := mk_guid 0x50000000000AA; name := "renamed" |}
              sensor_state Hwf) as [H _].
  apply H. now left.
Defined.

(** ** The endpoint mapping over time *)

Lemma extends_refl {A : Type} (l : list A) : extends l l.
Proof. exists []. now rewrite app_nil_r. Qed.

Lemma extends_trans {A : Type} (l1 l2 l3 : list A) :
  extends l2 l1 -> extends l3 l2 -> extends l3 l1.
Proof.
  intros [t1 ->] [t2 ->]. exists (t1 ++ t2). now rewrite app_assoc.
Qed.

Lemma upserted_extends (m : REDPMessage) (l : list EndpointInfo) :
  extends (upserted m l) l.
Proof.
  unfold upserted. destruct (scan_exists _ _ l); [apply extends_refl | now eexists].
Qed.

Section EndpointMapping.

Context {order : UMap.HashOrder}.

Lemma endpoints_of_upsert (m : REDPMessage) (st : MonitorState) (p : Z) :
  UMap.wf (topics st) ->
  endpoints_of p (endpoint_upsert m st)
  = if Z.eqb p (get_prefix (endpoint_guid m))
    then upserted m (endpoints_of p st)
    else endpoints_of p st.
Proof.
  intros Hwf. unfold endpoints_of at 1. rewrite endpoint_upsert_find by assumption.
  destruct (Z.eqb_spec p (get_prefix (endpoint_guid m))) as [->|_]; reflexivity.
Qed.

Lemma endpoint_upsert_keys (m : REDPMessage) (st : MonitorState) (q : Z) :
  UMap.wf (topics st) ->
  In q (UMap.keys (topics st)) -> In q (UMap.keys (topics (endpoint_upsert m st))).
Proof.
  intros Hwf Hin.
  destruct (UMap.find q (topics (endpoint_upsert m st))) as [l|] eqn:E.
  - eapply UMapFacts.in_keys, UMapFacts.find_some_in, E.
  - rewrite endpoint_upsert_find in E by assumption.
    destruct (Z.eqb q (get_prefix (endpoint_guid m))); [discriminate|].
    apply UMapFacts.find_none_iff in E. contradiction.
Qed.

Lemma endpoint_announcements_wf (msgs : list REDPMessage) (st : MonitorState) :
  UMap.wf (topics st) -> UMap.wf (topics (endpoint_announcements msgs st)).
Proof.
  revert st. induction msgs as [|m msgs IH]; intros st Hwf; [exact Hwf|].
  unfold endpoint_announcements in *. simpl. apply IH. now apply endpoint_upsert_wf.
Qed.

(** Endpoint announcements only ever append: whatever the list of a prefix
    holds stays where it is, in the same order, with the new records behind
    it, and a prefix that has a list keeps having one. *)
Theorem endpoint_lists_grow (msgs : list REDPMessage) (st : MonitorState) (p : Z) :
  UMap.wf (topics st) ->
  extends (endpoints_of p (endpoint_announcements msgs st)) (endpoints_of p st) /\
  (In p (UMap.keys (topics st)) ->
   In p (UMap.keys (topics (endpoint_announcements msgs st)))) /\
  nodes (endpoint_announcements msgs st) = nodes st.
Proof.
  intros Hwf. split; [|split; [|apply endpoint_announcements_nodes]].
  - induction msgs as [|m msgs IH] using rev_ind; [apply extends_refl|].
    rewrite endpoint_announcements_snoc.
    rewrite endpoints_of_upsert by now apply endpoint_announcements_wf.
    destruct (Z.eqb p (get_prefix (endpoint_guid m))); [|exact IH].
    eapply extends_trans; [exact IH | apply upserted_extends].
  - intros Hin. induction msgs as [|m msgs IH] using rev_ind; [exact Hin|].
    rewrite endpoint_announcements_snoc.
    apply endpoint_upsert_keys; [now apply endpoint_announcements_wf | exact IH].
Qed.

Lemma endpoint_upsert_present (m : REDPMessage) (st : MonitorState) :
  exists l,
    UMap.find (get_prefix (endpoint_guid m)) (topics (endpoint_upsert m st)) = Some l /\
    scan_exists (msg_topic m) (pub_of m) l = true.
Proof.
  unfold endpoint_upsert, UMap.subscript. fold (pub_of m).
  destruct (UMap.find (get_prefix (endpoint_guid m)) (topics st)) as [l|] eqn:E.
  - destruct (scan_exists (msg_topic m) (pub_of m) l) eqn:Hscan; simpl.
    + exists l. now split.
    + exists (l ++ [{| topic := msg_topic m; is_pub := pub_of m |}]). split.
      * apply UMapFacts.find_store_same. eapply UMapFacts.in_keys.
        apply UMapFacts.find_some_in, E.
      * apply scan_exists_true_iff, in_or_app. right. now left.
  - simpl. exists [{| topic := msg_topic m; is_pub := pub_of m |}]. split.
    + apply UMapFacts.find_store_same. unfold UMap.keys.
      eapply Permutation_in;
        [apply Permutation_map, Permutation_sym, UMap.place_perm | now left].
    + apply scan_exists_true_iff. now left.
Qed.

(** Handling the same announcement again leaves the store exactly as the
    first time left it, in both listeners. *)
Theorem upsert_idempotent (mn : RNDPMessage) (me : REDPMessage) (st : MonitorState) :
  node_upsert mn (node_upsert mn st) = node_upsert mn st /\
  endpoint_upsert me (endpoint_upsert me st) = endpoint_upsert me st.
Proof.
  split.
  - unfold node_upsert. cbn [nodes topics]. f_equal.
    unfold UMap.assign at 1.
    assert (Hfind : UMap.find (get_prefix (guid mn))
                      (UMap.assign EmptyString (get_prefix (guid mn)) (name mn) (nodes st))
                    = Some (name mn)).
    { unfold UMap.assign. apply UMapFacts.find_store_same.
      apply UMapFacts.subscript_key. }
    rewrite (UMapFacts.subscript_present _ _ _ _ Hfind). cbn [snd].
    unfold UMap.assign. apply store_store.
  - destruct (endpoint_upsert_present me st) as [l [Hfind Hscan]].
    remember (endpoint_upsert me st) as st1 eqn:Hst1. clear Hst1.
    unfold endpoint_upsert. rewrite (UMapFacts.subscript_present _ _ _ _ Hfind).
    fold (pub_of me). rewrite Hscan. simpl. now destruct st1.
Qed.

End EndpointMapping.

Lemma endpoint_lists_grow_witness :
  UMap.wf (topics sensor_state) /\
  extends
    (endpoints_of 0xAA
       (@endpoint_announcements UMap.append_order
          [{| endpoint_guid := mk_guid 0xAA; msg_topic := "imu"; type := Writer |};
           {| endpoint_guid := mk_guid 0xAA; msg_topic := "odom"; type := Writer |}]
          sensor_state))
    (endpoints_of 0xAA sensor_state).
Proof.
  assert (Hwf : UMap.wf (topics sensor_state)).
  { unfold UMap.wf. simpl. constructor; [intros [] | constructor]. }
  split; [exact Hwf|].
  apply (@endpoint_lists_grow UMap.append_order
           [{| endpoint_guid := mk_guid 0xAA; msg_topic := "imu"; type := Writer |};
            {| endpoint_guid := mk_guid 0xAA; msg_topic := "odom"; type := Writer |}]
           sensor_state 0xAA Hwf).
Defined.

(** ** The two loops side by side *)
Section Loops.

Context {order : UMap.HashOrder}.
Variable RNDP_deserialize : string -> RNDPMessage.
Variable REDP_deserialize : string -> REDPMessage.

(** The node listener never touches the endpoint mapping, the endpoint
    listener never touches the node mapping, and the store they leave does
    not depend on which of the two loops ran first. *)
Theorem listeners_commute (node_in ep_in : list string) (st : MonitorState) :
  topics (task_nodes RNDP_deserialize node_in st) = topics st /\
  nodes (task_topics REDP_deserialize ep_in st) = nodes st /\
  task_nodes RNDP_deserialize node_in (task_topics REDP_deserialize ep_in st)
  = task_topics REDP_deserialize ep_in (task_nodes RNDP_deserialize node_in st).
Proof.
  split; [apply task_nodes_topics|]. split; [apply task_topics_nodes|].
  apply state_ext.
  - rewrite task_topics_nodes. apply task_nodes_frame. apply task_topics_nodes.
  - rewrite task_nodes_topics. apply task_topics_frame. symmetry.
    apply task_nodes_topics.
Qed.

(** Each loop handles exactly the datagrams of at least 14 bytes whose first
    byte is its tag, decoded, in the order of arrival; a datagram cannot
    pass the test of both loops. *)
Theorem listeners_process_accepted (inbox : list string) (st : MonitorState) :
  task_nodes RNDP_deserialize inbox st
  = node_announcements (map RNDP_deserialize (filter (accepts "N"%char) inbox)) st /\
  task_topics REDP_deserialize inbox st
  = endpoint_announcements (map REDP_deserialize (filter (accepts "E"%char) inbox)) st /\
  (forall tag data,
      accepts tag data = true
      <-> (14 <= String.length data)%nat /\ String.get 0 data = Some tag) /\
  (forall data, accepts "N"%char data = true -> accepts "E"%char data = false).
Proof.
  split; [apply task_nodes_decoded|]. split; [apply task_topics_decoded|]. split.
  - intros tag data. split; [apply accepts_true|].
    intros [Hlen Htag]. unfold accepts. rewrite Htag, Ascii.eqb_refl.
    rewrite andb_true_r. apply Z.leb_le. lia.
  - intros data H. apply accepts_true in H. destruct H as [_ H].
    apply accepts_malformed. right. rewrite H. discriminate.
Qed.

End Loops.

(** ** The exported graph as a document *)

Lemma well_scoped_mono (ls : list DotLine) :
  forall seen seen',
    (forall v, In v seen -> In v seen') ->
    well_scoped seen ls -> well_scoped seen' ls.
Proof.
  induction ls as [|l ls IH]; intros seen seen' Hsub; [trivial|].
  destruct l as [|t|p lbl|src dst c lbl|]; simpl.
  - apply IH, Hsub.
  - apply IH. intros v [->|H]; [now left | right; auto].
  - apply IH. intros v [->|H]; [now left | right; auto].
  - intros [H1 [H2 H3]]. split; [auto|]. split; [auto|]. eapply IH; eassumption.
  - apply IH, Hsub.
Qed.

Lemma well_scoped_topic_decls (ts : list string) (rest : list DotLine) :
  forall seen,
    well_scoped (map TopicV ts ++ seen) rest ->
    well_scoped seen (map TopicDecl ts ++ rest).
Proof.
  induction ts as [|t ts IH]; intros seen H; [exact H|].
  simpl. apply IH. eapply well_scoped_mono; [|exact H].
  intros v Hv. simpl in Hv. rewrite in_app_iff in *. simpl.
  destruct Hv as [->|[Hv|Hv]]; auto.
Qed.

Lemma well_scoped_edges (p : Z) (eps : list EndpointInfo) (rest : list DotLine)
  (seen : list Vertex) :
  In (NodeV p) seen ->
  (forall ep, In ep eps -> In (TopicV (topic ep)) seen) ->
  well_scoped seen rest ->
  well_scoped seen (map (edge_line p) eps ++ rest).
Proof.
  intros Hp Heps Hrest. induction eps as [|ep eps IH]; [exact Hrest|].
  simpl. assert (Ht : In (TopicV (topic ep)) seen) by (apply Heps; now left).
  assert (IH' : well_scoped seen (map (edge_line p) eps ++ rest))
    by (apply IH; intros ep' H; apply Heps; now right).
  unfold edge_line at 1. destruct (is_pub ep); simpl; auto.
Qed.

Lemma well_scoped_blocks (st : MonitorState) (ns : list (Z * string)) :
  forall seen,
    (forall p ep, In ep (endpoints_of p st) -> In (TopicV (topic ep)) seen) ->
    well_scoped seen (flat_map (node_block st) ns ++ [Footer]).
Proof.
  induction ns as [|[p nm] ns IH]; intros seen Hseen; [exact I|].
  cbn [flat_map]. rewrite <- app_assoc. unfold node_block at 1. cbn [fst snd].
  rewrite <- app_comm_cons. cbn [well_scoped declares]. apply well_scoped_edges.
  - now left.
  - intros ep Hep. right. eapply Hseen, Hep.
  - apply IH. intros q ep Hep. right. eapply Hseen, Hep.
Qed.

Lemma declared_app (a b : list DotLine) : declared (a ++ b) = declared a ++ declared b.
Proof. unfold declared. apply flat_map_app. Qed.

Lemma declared_topic_decls (ts : list string) :
  declared (map TopicDecl ts) = map TopicV ts.
Proof. induction ts as [|t ts IH]; simpl; [reflexivity | now rewrite <- IH]. Qed.

Lemma declared_edges (p : Z) (eps : list EndpointInfo) :
  declared (map (edge_line p) eps) = [].
Proof.
  induction eps as [|ep eps IH]; [reflexivity|].
  simpl. unfold edge_line at 1. now destruct (is_pub ep).
Qed.

Lemma declared_blocks (st : MonitorState) (ns : list (Z * string)) :
  declared (flat_map (node_block st) ns) = map NodeV (UMap.keys ns).
Proof.
  induction ns as [|[p nm] ns IH]; [reflexivity|].
  cbn [flat_map]. rewrite declared_app. unfold node_block at 1. cbn [fst snd].
  change (declared (NodeDecl p nm :: map (edge_line p) (endpoints_of p st)))
    with (NodeV p :: declared (map (edge_line p) (endpoints_of p st))).
  rewrite declared_edges, IH. reflexivity.
Qed.

Section GraphDocument.

Context {order : UMap.HashOrder}.

(** Every edge of the export connects two vertices declared above it: the
    box of its node and the ellipse of its topic.  The declarations are the
    topics of the store in ascending order followed by the prefixes of the
    node mapping in iteration order, so no vertex is declared twice. *)
Theorem graph_is_well_scoped (st : MonitorState) :
  well_scoped [] (fst (graph_lines st)) /\
  declared (fst (graph_lines st))
  = map TopicV (all_topics (topics st)) ++ map NodeV (UMap.keys (nodes st)) /\
  (UMap.wf (nodes st) -> NoDup (declared (fst (graph_lines st)))).
Proof.
  rewrite graph_lines_spec. cbn [fst].
  assert (Hdecl : declared
                    (Header :: map TopicDecl (all_topics (topics st))
                       ++ flat_map (node_block st) (nodes st) ++ [Footer])
                  = map TopicV (all_topics (topics st))
                      ++ map NodeV (UMap.keys (nodes st))).
  { change (declared (Header :: ?l)) with (declared l).
    rewrite !declared_app, declared_topic_decls, declared_blocks.
    simpl. now rewrite app_nil_r. }
  split; [|split; [exact Hdecl|]].
  - simpl. apply well_scoped_topic_decls. apply well_scoped_blocks.
    intros p ep Hep. apply in_or_app. left. apply in_map.
    apply all_topics_spec. unfold endpoints_of in Hep.
    destruct (UMap.find p (topics st)) as [l|] eqn:E; [|destruct Hep].
    exists p, l, ep. split; [now apply UMapFacts.find_some_in | now split].
  - intros Hwf. rewrite Hdecl. apply NoDup_app.
    + apply Finite.Injective_map_NoDup; [intros a b [= ->]; reflexivity|].
      apply StrSetFacts.sorted_nodup, all_topics_spec.
    + apply Finite.Injective_map_NoDup; [intros a b [= ->]; reflexivity | exact Hwf].
    + intros v H1 H2. apply in_map_iff in H1, H2.
      destruct H1 as [t [<- _]], H2 as [p [H _]]. discriminate.
Qed.

End GraphDocument.

(** The export of [sensor_state] declares imu, cmd and the node, each once. *)
Lemma graph_is_well_scoped_witness :
  UMap.wf (nodes sensor_state) /\
  NoDup (declared (fst (@graph_lines UMap.append_order sensor_state))).
Proof.
  assert (Hwf : UMap.wf (nodes sensor_state)).
  { unfold UMap.wf. simpl. constructor; [intros [] | constructor]. }
  split; [exact Hwf|].
  now apply (@graph_is_well_scoped UMap.append_order sensor_state).
Defined.

(** ** Vertex identifiers *)

Lemma hex_digit_value_digit (n : Z) :
  0 <= n < 16 -> hex_digit_value (hex_digit n) = n.
Proof.
  intros H. rewrite <- (Z2Nat.id n) by lia.
  assert (Hk : (Z.to_nat n < 16)%nat) by lia.
  revert Hk. generalize (Z.to_nat n). intros k Hk.
  do 16 (destruct k as [|k]; [reflexivity|]). lia.
Qed.

Lemma hex_value_digits (fuel : nat) :
  forall n acc,
    0 <= n < 16 ^ Z.of_nat fuel ->
    hex_value 0 (hex_digits fuel n acc) = hex_value n acc.
Proof.
  induction fuel as [|fuel IH]; intros n acc Hn.
  - simpl in Hn. assert (n = 0) by lia. now subst.
  - cbn [hex_digits]. destruct (Z.ltb_spec n 16) as [Hlt|Hge].
    + cbn [hex_value]. rewrite hex_digit_value_digit by lia. reflexivity.
    + rewrite Nat2Z.inj_succ, Z.pow_succ_r in Hn by lia.
      rewrite IH.
      * cbn [hex_value].
        rewrite hex_digit_value_digit by (apply Z.mod_pos_bound; lia).
        f_equal. symmetry. apply Z.div_mod. lia.
      * split; [apply Z.div_pos; lia | apply Z.div_lt_upper_bound; lia].
Qed.

Lemma str_length_app (a b : string) :
  String.length (a ++ b) = (String.length a + String.length b)%nat.
Proof. induction a as [|c a IH]; simpl; [reflexivity | now rewrite IH]. Qed.

Lemma str_app_inv_tail (a b c : string) : (a ++ c)%string = (b ++ c)%string -> a = b.
Proof.
  revert b. induction a as [|x a IH]; intros [|y b] H; simpl in H.
  - reflexivity.
  - apply (f_equal String.length) in H. simpl in H. rewrite str_length_app in H. lia.
  - apply (f_equal String.length) in H. simpl in H. rewrite str_length_app in H. lia.
  - injection H as -> H. f_equal. now apply IH.
Qed.

(** The number after the n of a node identifier reads back as the prefix,
    so two prefixes never share an identifier; a node identifier is never a
    topic identifier; and two topic names without a NUL byte never share an
    identifier either. *)
Theorem vertex_ids_distinct (p q : Z) :
  0 <= p < 2 ^ 64 ->
  0 <= q < 2 ^ 64 ->
  hex_value 0 (fmt_lx p) = p /\
  (vertex_id (NodeV p) = vertex_id (NodeV q) -> p = q) /\
  (forall t, vertex_id (NodeV p) <> vertex_id (TopicV t)) /\
  (forall t t', c_str t = t -> c_str t' = t' ->
                vertex_id (TopicV t) = vertex_id (TopicV t') -> t = t').
Proof.
  intros Hp Hq.
  assert (Hval : forall n, 0 <= n < 2 ^ 64 -> hex_value 0 (fmt_lx n) = n).
  { intros n Hn. unfold fmt_lx. rewrite hex_value_digits; [reflexivity|].
    change (16 ^ Z.of_nat 16) with (2 ^ 64). exact Hn. }
  split; [now apply Hval|]. split; [|split].
  - simpl. intros [= H]. rewrite <- (Hval p Hp), <- (Hval q Hq). now rewrite H.
  - intros t. simpl. discriminate.
  - intros t t' Ht Ht'. simpl. rewrite Ht, Ht'. intros [= H].
    now apply str_app_inv_tail in H.
Qed.

(** Two 48-bit prefixes and their identifiers. *)
Lemma vertex_ids_distinct_witness :
  0 <= 0xAA < 2 ^ 64 /\ 0 <= 0xAB < 2 ^ 64 /\
  hex_value 0 (fmt_lx 0xAA) = 0xAA /\
  (vertex_id (NodeV 0xAA) = vertex_id (NodeV 0xAB) -> 0xAA = 0xAB).
Proof.
  assert (Hp : 0 <= 0xAA < 2 ^ 64) by lia.
  assert (Hq : 0 <= 0xAB < 2 ^ 64) by lia.
  split; [exact Hp|]. split; [exact Hq|].
  destruct (vertex_ids_distinct 0xAA 0xAB Hp Hq) as [H1 [H2 _]].
  split; [exact H1 | exact H2].
Defined.

(** ** What the console leaves behind *)

Lemma sorted_ext (l l' : list string) :
  StronglySorted StrSet.lt l -> StronglySorted StrSet.lt l' ->
  (forall x, In x l <-> In x l') -> l = l'.
Proof.
  intros Hl. revert l'. induction Hl as [|x xs Hxs IH Hx]; intros l' Hl' Hin.
  - destruct l' as [|y ys]; [reflexivity|]. exfalso. apply (Hin y). now left.
  - destruct Hl' as [|y ys Hys Hy]; [exfalso; apply (Hin x); now left|].
    rewrite Forall_forall in Hx, Hy.
    assert (Exy : x = y).
    { destruct (proj1 (Hin x) (or_introl eq_refl)) as [E|Hxin]; [now symmetry|].
      destruct (proj2 (Hin y) (or_introl eq_refl)) as [E|Hyin]; [exact E|].
      exfalso. apply (StrSetFacts.lt_irrefl x).
      eapply StrSetFacts.lt_trans; [apply Hx, Hyin | apply Hy, Hxin]. }
    subst y. f_equal. apply IH; [exact Hys|].
    intros z. split; intros Hz.
    + destruct (proj1 (Hin z) (or_intror Hz)) as [E|H]; [|exact H].
      subst z. exfalso. exact (StrSetFacts.lt_irrefl x (Hx x Hz)).
    + destruct (proj2 (Hin z) (or_intror Hz)) as [E|H]; [|exact H].
      subst z. exfalso. exact (StrSetFacts.lt_irrefl x (Hy x Hz)).
Qed.

Lemma topic_in_store_view (t : string) (st : MonitorState) :
  UMap.wf (topics st) ->
  (topic_in_store t st <-> exists p ep, In ep (endpoints_of p st) /\ topic ep = t).
Proof.
  intros Hwf. unfold topic_in_store, endpoints_of. split.
  - intros [p [l [ep [Hin [Hep Ht]]]]]. exists p, ep.
    rewrite (UMapFacts.in_find p l (topics st) Hwf Hin). now split.
  - intros [p [ep [Hep Ht]]].
    destruct (UMap.find p (topics st)) as [l|] eqn:E; [|destruct Hep].
    exists p, l, ep. split; [now apply UMapFacts.find_some_in | now split].
Qed.

Lemma all_topics_view (a b : MonitorState) :
  UMap.wf (topics a) -> UMap.wf (topics b) -> same_view a b ->
  all_topics (topics a) = all_topics (topics b).
Proof.
  intros Ha Hb [_ Heps].
  destruct (all_topics_spec (topics a)) as [Hsa Hina].
  destruct (all_topics_spec (topics b)) as [Hsb Hinb].
  apply sorted_ext; [exact Hsa | exact Hsb|].
  intros t. rewrite Hina, Hinb.
  fold (topic_in_store t a). fold (topic_in_store t b).
  rewrite !topic_in_store_view by assumption.
  split; intros [p [ep H]]; exists p, ep; [rewrite <- Heps | rewrite Heps]; exact H.
Qed.

Lemma same_view_sym (a b : MonitorState) : same_view a b -> same_view b a.
Proof. intros [H1 H2]. split; [now symmetry | intros p; now symmetry]. Qed.

Lemma same_view_trans (a b c : MonitorState) :
  same_view a b -> same_view b c -> same_view a c.
Proof.
  intros [H1 H2] [H3 H4]. split; [congruence | intros p; now rewrite H2].
Qed.

Lemma records_if_named_view (arg : string) (a b : MonitorState) (ns : list (Z * string)) :
  (forall p, endpoints_of p a = endpoints_of p b) ->
  flat_map (records_if_named arg a) ns = flat_map (records_if_named arg b) ns.
Proof.
  intros H. apply flat_map_ext. intros entry. unfold records_if_named. now rewrite H.
Qed.

Lemma records_if_named_none (arg : string) (st : MonitorState) (ns : list (Z * string)) :
  (forall entry, In entry ns -> snd entry <> arg) ->
  flat_map (records_if_named arg st) ns = [].
Proof.
  induction ns as [|entry ns IH]; intros H; [reflexivity|].
  simpl. rewrite IH by (intros e He; apply H; now right).
  unfold records_if_named.
  destruct (String.eqb_spec (snd entry) arg) as [E|_]; [|reflexivity].
  exfalso. apply (H entry); [now left | exact E].
Qed.

Section Console.

Context {order : UMap.HashOrder}.

Lemma info_cmd_spec (arg : string) (st : MonitorState) :
  UMap.wf (topics st) ->
  visible (info_cmd arg st)
  = (None, [], map info_line (flat_map (records_if_named arg st) (nodes st))) /\
  same_view (out_state (info_cmd arg st)) st /\
  UMap.wf (topics (out_state (info_cmd arg st))) /\
  (forall p, In (p, arg) (nodes st) ->
             UMap.find p (topics (out_state (info_cmd arg st))) <> None).
Proof.
  intros Hwf. destruct (info_loop_spec arg (nodes st) st Hwf) as [Hfst [Hwf' Hfind]].
  unfold info_cmd, visible.
  destruct (info_loop arg (nodes st) (topics st)) as [printed tps].
  cbn [fst snd] in *. cbn [out_state out_file out_system out_stdout topics nodes].
  subst printed. split; [reflexivity|]. split; [|split; [exact Hwf'|]].
  - split; [reflexivity|]. intros p. unfold endpoints_of. cbn [topics].
    rewrite Hfind. destruct (UMap.find p (topics st)); [reflexivity|].
    now destruct (named arg p (nodes st)).
  - intros p Hin. rewrite Hfind. destruct (UMap.find p (topics st)); [discriminate|].
    replace (named arg p (nodes st)) with true; [discriminate|].
    symmetry. apply existsb_exists. exists (p, arg). split; [exact Hin|].
    simpl. now rewrite String.eqb_refl, Z.eqb_refl.
Qed.

Lemma info_loop_fixed (arg : string) (st : MonitorState) (ns : list (Z * string)) :
  (forall p, In (p, arg) ns -> UMap.find p (topics st) <> None) ->
  info_loop arg ns (topics st) = (flat_map (records_if_named arg st) ns, topics st).
Proof.
  induction ns as [|[p nm] ns IH]; intros H; [reflexivity|].
  cbn [info_loop flat_map]. unfold records_if_named at 1. cbn [fst snd].
  destruct (String.eqb_spec nm arg) as [->|Hne].
  - destruct (UMap.find p (topics st)) as [l|] eqn:E;
      [|exfalso; apply (H p); [now left | exact E]].
    rewrite (UMapFacts.subscript_present [] p l (topics st) E).
    rewrite IH by (intros q Hq; apply H; now right).
    unfold endpoints_of. now rewrite E.
  - apply IH. intros q Hq. apply H. now right.
Qed.

(** [info] with a name that is a token (1 to 63 bytes, none of them white
    space or NUL) and that no node carries does nothing at all: it prints
    nothing and, unlike a successful lookup, inserts nothing; the turn for
    the line [info arg] goes round with the store as it was. *)
Theorem info_unknown_name_no_effect (arg : string) (st : MonitorState) :
  is_token arg = true ->
  (forall entry, In entry (nodes st) -> snd entry <> arg) ->
  info_cmd arg st = no_effect st /\
  (forall fopen_ok cmd0 arg0,
      console_turn fopen_ok ("info " ++ arg ++ newline) cmd0 arg0 st
      = Continue "info" arg (no_effect st)).
Proof.
  intros Htok Hnone.
  assert (H : info_cmd arg st = no_effect st).
  { unfold info_cmd. rewrite (info_loop_fixed arg st (nodes st)).
    - replace (flat_map (records_if_named arg st) (nodes st)) with (@nil EndpointInfo).
      + unfold no_effect. now destruct st.
      + symmetry. now apply records_if_named_none.
    - intros p Hin. exfalso. apply (Hnone (p, arg) Hin). reflexivity. }
  split; [exact H|]. intros f cmd0 arg0. rewrite <- H. now apply console_turn_info.
Qed.

End Console.

Section ConsoleTrace.

Context {order : UMap.HashOrder}.

Lemma node_block_view (a b : MonitorState) (ns : list (Z * string)) :
  (forall p, endpoints_of p a = endpoints_of p b) ->
  flat_map (node_block a) ns = flat_map (node_block b) ns.
Proof.
  intros H. apply flat_map_ext. intros entry. unfold node_block. now rewrite H.
Qed.

Lemma command_view_eq fopen_ok n cmd arg (a b : MonitorState) :
  UMap.wf (topics a) -> UMap.wf (topics b) -> same_view a b ->
  option_map visible (command fopen_ok n cmd arg a)
  = option_map visible (command fopen_ok n cmd arg b).
Proof.
  intros Ha Hb Hview. pose proof Hview as [Hn Heps]. unfold command.
  destruct (n <=? 0); [reflexivity|].
  destruct (String.eqb cmd "list").
  { simpl. unfold visible, list_cmd. simpl. now rewrite Hn. }
  destruct (String.eqb cmd "info" && (n =? 2)).
  { simpl. destruct (info_cmd_spec arg a Ha) as [-> _].
    destruct (info_cmd_spec arg b Hb) as [-> _].
    now rewrite Hn, (records_if_named_view arg a b (nodes b) Heps). }
  destruct (String.eqb cmd "graph").
  { simpl. unfold generate_graph. destruct fopen_ok; simpl; [|reflexivity].
    rewrite !graph_lines_spec. unfold visible. simpl.
    now rewrite (all_topics_view a b Ha Hb Hview), Hn,
      (node_block_view a b (nodes b) Heps). }
  destruct (String.eqb cmd "quit"); reflexivity.
Qed.

Lemma same_view_refl (st : MonitorState) : same_view st st.
Proof. now split. Qed.

Lemma command_same_view fopen_ok n cmd arg (st : MonitorState) (o : Outcome) :
  UMap.wf (topics st) ->
  command fopen_ok n cmd arg st = Some o ->
  same_view (out_state o) st /\ UMap.wf (topics (out_state o)).
Proof.
  intros Hwf. unfold command.
  destruct (n <=? 0); [intros [= <-]; split; [apply same_view_refl | exact Hwf]|].
  destruct (String.eqb cmd "list");
    [intros [= <-]; split; [apply same_view_refl | exact Hwf]|].
  destruct (String.eqb cmd "info" && (n =? 2)).
  { intros [= <-]. destruct (info_cmd_spec arg st Hwf) as [_ [H1 [H2 _]]]. now split. }
  destruct (String.eqb cmd "graph").
  { intros [= <-]. rewrite generate_graph_state.
    split; [apply same_view_refl | exact Hwf]. }
  destruct (String.eqb cmd "quit"); [discriminate|].
  intros [= <-]. split; [apply same_view_refl | exact Hwf].
Qed.

(** For a name that is a token (1 to 63 bytes, none of them white space or
    NUL), a second [info] for the same name prints what the first one
    printed and finds the store as the first one left it: the empty lists
    are inserted once.  Both lines are scanned as they stand. *)
Theorem info_twice (arg : string) (st : MonitorState) :
  UMap.wf (topics st) ->
  is_token arg = true ->
  (forall fopen_ok cmd0 arg0 st',
      console_turn fopen_ok ("info " ++ arg ++ newline) cmd0 arg0 st'
      = Continue "info" arg (info_cmd arg st')) /\
  out_state (info_cmd arg (out_state (info_cmd arg st))) = out_state (info_cmd arg st) /\
  out_stdout (info_cmd arg (out_state (info_cmd arg st))) = out_stdout (info_cmd arg st).
Proof.
  intros Hwf Htok.
  split; [intros f cmd0 arg0 st'; now apply console_turn_info|].
  destruct (info_cmd_spec arg st Hwf) as [Hvis [[Hn Heps] [_ Hkeys]]].
  assert (Hstdout : out_stdout (info_cmd arg st)
                    = map info_line (flat_map (records_if_named arg st) (nodes st))).
  { unfold visible in Hvis. now injection Hvis. }
  rewrite Hstdout. clear Hvis Hstdout.
  remember (out_state (info_cmd arg st)) as st1 eqn:E. clear E.
  unfold info_cmd. rewrite (info_loop_fixed arg st1 (nodes st1)).
  - cbn [out_state out_stdout]. split; [now destruct st1|].
    now rewrite Hn, (records_if_named_view arg st1 st (nodes st) Heps).
  - intros p Hin. apply Hkeys. now rewrite <- Hn.
Qed.

(** No console command leaves a trace that a later command could show:
    after any command that does not end the loop, every command prints,
    writes and starts exactly what it would have without it.  The commands
    are those whose buffers the scan can have filled: tokens of at most 63
    bytes. *)
Theorem console_leaves_no_trace fopen_ok1 n1 cmd1 arg1 (st : MonitorState) (o1 : Outcome) :
  UMap.wf (topics st) ->
  scanned n1 cmd1 arg1 = true ->
  command fopen_ok1 n1 cmd1 arg1 st = Some o1 ->
  nodes (out_state o1) = nodes st /\
  (forall p, endpoints_of p (out_state o1) = endpoints_of p st) /\
  (forall fopen_ok n cmd arg,
      scanned n cmd arg = true ->
      option_map visible (command fopen_ok n cmd arg (out_state o1))
      = option_map visible (command fopen_ok n cmd arg st)).
Proof.
  intros Hwf _ Hcmd.
  destruct (command_same_view _ _ _ _ st o1 Hwf Hcmd) as [[Hn Heps] Hwf1].
  split; [exact Hn|]. split; [exact Heps|].
  intros f n cmd arg _. apply command_view_eq; [exact Hwf1 | exact Hwf | now split].
Qed.

End ConsoleTrace.

(** On [silent_state] no node is called nobody. *)
Lemma info_unknown_name_no_effect_witness :
  is_token "nobody" = true /\
  (forall entry, In entry (nodes silent_state) -> snd entry <> "nobody") /\
  @info_cmd UMap.append_order "nobody" silent_state = no_effect silent_state.
Proof.
  assert (H : forall entry, In entry (nodes silent_state) -> snd entry <> "nobody").
  { intros entry [<-|[]]. simpl. discriminate. }
  split; [reflexivity|]. split; [exact H|].
  apply (@info_unknown_name_no_effect UMap.append_order "nobody" silent_state
           eq_refl H).
Defined.

(** On [silent_state] the second [info sensor1] changes nothing more. *)
Lemma info_twice_witness :
  UMap.wf (topics silent_state) /\
  is_token "sensor1" = true /\
  out_state (@info_cmd UMap.append_order "sensor1"
               (out_state (@info_cmd UMap.append_order "sensor1" silent_state)))
  = {| nodes := [(0xAA, "sensor1")]; topics := [(0xAA, [])] |}.
Proof.
  assert (Hwf : UMap.wf (topics silent_state)) by constructor.
  split; [exact Hwf|]. split; [reflexivity|].
  destruct (@info_twice UMap.append_order "sensor1" silent_state Hwf eq_refl)
    as [_ [H _]].
  rewrite H. reflexivity.
Defined.

(** After [info sensor1] on [silent_state] the export is what it was. *)
Lemma console_leaves_no_trace_witness :
  UMap.wf (topics silent_state) /\
  scanned 2 "info" "sensor1" = true /\
  @command UMap.append_order true 2 "info" "sensor1" silent_state
  = Some (@info_cmd UMap.append_order "sensor1" silent_state) /\
  option_map visible
    (@command UMap.append_order true 1 "graph" "sensor1"
       (out_state (@info_cmd UMap.append_order "sensor1" silent_state)))
  = option_map visible
      (@command UMap.append_order true 1 "graph" "sensor1" silent_state).
Proof.
  assert (Hwf : UMap.wf (topics silent_state)) by constructor.
  split; [exact Hwf|]. split; [reflexivity|]. split; [reflexivity|].
  destruct (@console_leaves_no_trace UMap.append_order true 2 "info" "sensor1"
              silent_state (@info_cmd UMap.append_order "sensor1" silent_state)
              Hwf eq_refl eq_refl) as [_ [_ H]].
  apply H. reflexivity.
Defined.

(** ** The store over a whole run *)

Lemma quits_iff {order : UMap.HashOrder} fopen_ok n cmd arg (st : MonitorState) :
  command fopen_ok n cmd arg st = None <-> quits (ConsoleLine fopen_ok n cmd arg) = true.
Proof.
  unfold command, quits.
  destruct (n <=? 0); [simpl; split; discriminate|].
  destruct (String.eqb cmd "list"); [simpl; split; discriminate|].
  destruct (String.eqb cmd "info" && (n =? 2)); [simpl; split; discriminate|].
  destruct (String.eqb cmd "graph"); [simpl; split; discriminate|].
  destruct (String.eqb cmd "quit"); simpl; split; intros H;
    reflexivity || discriminate.
Qed.

Section Sessions.

Context {order : UMap.HashOrder}.
Variable RNDP_deserialize : string -> RNDPMessage.
Variable REDP_deserialize : string -> REDPMessage.

Local Abbreviation handle' := (handle RNDP_deserialize REDP_deserialize).
Local Abbreviation session' := (session RNDP_deserialize REDP_deserialize).

Lemma snd_session_cons e es st o :
  handle' e st = Some o ->
  snd (session' (e :: es) st) = snd (session' es (out_state o)).
Proof.
  intros H. cbn [session]. rewrite H. now destruct (session' es (out_state o)).
Qed.

Lemma snd_session_quit e es st :
  handle' e st = None -> snd (session' (e :: es) st) = st.
Proof. intros H. cbn [session]. now rewrite H. Qed.

Lemma node_upsert_keeps_keys m st q :
  UMap.wf (nodes st) ->
  In q (UMap.keys (nodes st)) -> In q (UMap.keys (nodes (node_upsert m st))).
Proof.
  intros Hwf Hin.
  destruct (UMap.find q (nodes (node_upsert m st))) as [v|] eqn:E.
  - eapply UMapFacts.in_keys, UMapFacts.find_some_in, E.
  - simpl in E. rewrite UMapFacts.find_assign in E by assumption.
    destruct (Z.eqb q (get_prefix (guid m))); [discriminate|].
    apply UMapFacts.find_none_iff in E. contradiction.
Qed.

(** What one critical section does to the store. *)
Lemma handle_grows e st o :
  store_wf st -> handle' e st = Some o ->
  store_wf (out_state o) /\
  (forall q, In q (UMap.keys (nodes st)) -> In q (UMap.keys (nodes (out_state o)))) /\
  (forall p, extends (endpoints_of p (out_state o)) (endpoints_of p st)).
Proof.
  intros Hwf. destruct e as [d|d|f n cmd arg]; cbn [handle].
  - intros [= <-]. cbn [no_effect out_state]. unfold task_nodes_step.
    destruct (accepts "N"%char d).
    + split; [now apply node_upsert_store_wf|]. split.
      * intros q. apply node_upsert_keeps_keys, Hwf.
      * intros p. apply extends_refl.
    + split; [exact Hwf|]. split; [auto | intros p; apply extends_refl].
  - intros [= <-]. cbn [no_effect out_state]. unfold task_topics_step.
    destruct (accepts "E"%char d).
    + split; [now apply endpoint_upsert_store_wf|]. split.
      * intros q. now rewrite endpoint_upsert_nodes.
      * intros p. rewrite endpoints_of_upsert by apply Hwf.
        destruct (Z.eqb p _); [apply upserted_extends | apply extends_refl].
    + split; [exact Hwf|]. split; [auto | intros p; apply extends_refl].
  - intros Hcmd. split; [eapply command_store_wf; eassumption|].
    destruct (command_same_view f n cmd arg st o (proj2 Hwf) Hcmd) as [[Hn Heps] _].
    split; [intros q; now rewrite Hn|]. intros p. rewrite Heps. apply extends_refl.
Qed.

(** Through any sequence of datagrams and console lines whose tokens the
    scan can have stored (at most 63 bytes each) the keys of both mappings
    stay distinct, a prefix once in the node mapping stays in it, and every
    endpoint list keeps what it holds, in order, with new records only
    behind: nothing is ever removed or reordered. *)
Theorem session_store_grows (es : list Event) (st : MonitorState) :
  store_wf st ->
  Forall line_scanned es ->
  store_wf (snd (session' es st)) /\
  (forall q, In q (UMap.keys (nodes st)) ->
             In q (UMap.keys (nodes (snd (session' es st))))) /\
  (forall p, extends (endpoints_of p (snd (session' es st))) (endpoints_of p st)).
Proof.
  revert st. induction es as [|e es IH]; intros st Hwf Hscan.
  - simpl. split; [exact Hwf|]. split; [auto | intros p; apply extends_refl].
  - inversion Hscan as [|? ? _ Hscan']; subst.
    destruct (handle' e st) as [o|] eqn:E.
    + rewrite (snd_session_cons e es st o E).
      destruct (handle_grows e st o Hwf E) as [Hwf1 [Hk1 He1]].
      destruct (IH (out_state o) Hwf1 Hscan') as [Hwf2 [Hk2 He2]].
      split; [exact Hwf2|]. split; [auto|].
      intros p. eapply extends_trans; [apply He1 | apply He2].
    + rewrite (snd_session_quit e es st E).
      split; [exact Hwf|]. split; [auto | intros p; apply extends_refl].
Qed.

Lemma datagram_view e (a b : MonitorState) oa :
  is_datagram e = true ->
  store_wf a -> store_wf b -> same_view a b ->
  handle' e a = Some oa ->
  exists ob, handle' e b = Some ob /\ same_view (out_state oa) (out_state ob).
Proof.
  intros Hd Ha Hb [Hn Heps].
  destruct e as [d|d|f n cmd arg]; [| |discriminate]; cbn [handle]; intros [= <-];
    eexists; (split; [reflexivity|]); cbn [no_effect out_state].
  - unfold task_nodes_step. destruct (accepts "N"%char d); [|now split].
    split; [simpl; now rewrite Hn | exact Heps].
  - unfold task_topics_step. destruct (accepts "E"%char d); [|now split].
    split; [now rewrite !endpoint_upsert_nodes|].
    intros p. rewrite !endpoints_of_upsert by (apply Ha || apply Hb).
    now rewrite Heps.
Qed.

Lemma session_view (es : list Event) :
  forall a b,
    store_wf a -> store_wf b -> same_view a b ->
    Forall (fun e => quits e = false) es ->
    same_view (snd (session' es a)) (snd (session' (filter is_datagram es) b)) /\
    store_wf (snd (session' es a)) /\
    store_wf (snd (session' (filter is_datagram es) b)).
Proof.
  induction es as [|e es IH]; intros a b Ha Hb Hview Hq.
  - simpl. split; [exact Hview | split; assumption].
  - inversion Hq as [|? ? Hqe Hqes]; subst.
    destruct (handle' e a) as [oa|] eqn:Ea.
    + rewrite (snd_session_cons e es a oa Ea).
      destruct (handle_grows e a oa Ha Ea) as [Ha1 _].
      cbn [filter]. destruct (is_datagram e) eqn:Hd.
      * destruct (datagram_view e a b oa Hd Ha Hb Hview Ea) as [ob [Eb Hview1]].
        rewrite (snd_session_cons e _ b ob Eb).
        destruct (handle_grows e b ob Hb Eb) as [Hb1 _].
        now apply IH.
      * apply IH; try assumption.
        destruct e as [d|d|f n cmd arg]; try discriminate. cbn [handle] in Ea.
        destruct (command_same_view f n cmd arg a oa (proj2 Ha) Ea) as [Hv _].
        eapply same_view_trans; eassumption.
    + exfalso. destruct e as [d|d|f n cmd arg]; try discriminate.
      cbn [handle] in Ea. apply quits_iff in Ea. congruence.
Qed.

(** What the console shows depends on the datagrams received so far and on
    nothing the console did before: with the earlier console lines left out
    of the run, every command prints, writes and starts the same.  The
    console lines, earlier and later, are those whose tokens the scan can
    have stored: at most 63 bytes each. *)
Theorem console_history_irrelevant (es : list Event) (st : MonitorState) :
  store_wf st ->
  Forall line_scanned es ->
  Forall (fun e => quits e = false) es ->
  nodes (snd (session' es st)) = nodes (snd (session' (filter is_datagram es) st)) /\
  (forall p, endpoints_of p (snd (session' es st))
             = endpoints_of p (snd (session' (filter is_datagram es) st))) /\
  (forall fopen_ok n cmd arg,
      scanned n cmd arg = true ->
      option_map visible (command fopen_ok n cmd arg (snd (session' es st)))
      = option_map visible
          (command fopen_ok n cmd arg (snd (session' (filter is_datagram es) st)))).
Proof.
  intros Hwf _ Hq.
  destruct (session_view es st st Hwf Hwf (same_view_refl st) Hq)
    as [Hview [Hwf1 Hwf2]].
  split; [apply Hview|]. split; [apply Hview|].
  intros f n cmd arg _. apply command_view_eq; [apply Hwf1 | apply Hwf2 | exact Hview].
Qed.

End Sessions.

(** The store grows over a node announcement, a console query and an
    endpoint announcement. *)
Lemma session_store_grows_witness :
  store_wf sensor_state /\
  Forall line_scanned
    [NodeDatagram "N: camera is here";
     ConsoleLine true 2 "info" "camera";
     EndpointDatagram "E: sensor1 writes odom"] /\
  extends
    (endpoints_of 0xAA
       (snd (@session UMap.append_order
               (fun _ => {| guid := mk_guid 0xBB; name := "camera" |})
               (fun _ => {| endpoint_guid := mk_guid 0xAA; msg_topic := "odom";
                            type := Writer |})
               [NodeDatagram "N: camera is here";
                ConsoleLine true 2 "info" "camera";
                EndpointDatagram "E: sensor1 writes odom"]
               sensor_state)))
    (endpoints_of 0xAA sensor_state).
Proof.
  assert (Hwf : store_wf sensor_state).
  { split; unfold UMap.wf; simpl; (constructor; [intros [] | constructor]). }
  assert (Hs : Forall line_scanned
                 [NodeDatagram "N: camera is here";
                  ConsoleLine true 2 "info" "camera";
                  EndpointDatagram "E: sensor1 writes odom"])
    by (repeat constructor).
  split; [exact Hwf|]. split; [exact Hs|].
  apply (@session_store_grows UMap.append_order
           (fun _ => {| guid := mk_guid 0xBB; name := "camera" |})
           (fun _ => {| endpoint_guid := mk_guid 0xAA; msg_topic := "odom";
                        type := Writer |})
           [NodeDatagram "N: camera is here";
            ConsoleLine true 2 "info" "camera";
            EndpointDatagram "E: sensor1 writes odom"]
           sensor_state Hwf Hs).
Defined.

(** With or without the [info] in between, the node mapping is the same. *)
Lemma console_history_irrelevant_witness :
  store_wf sensor_state /\
  Forall line_scanned
    [NodeDatagram "N: camera is here";
     ConsoleLine true 2 "info" "camera";
     EndpointDatagram "E: sensor1 writes odom"] /\
  Forall (fun e => quits e = false)
    [NodeDatagram "N: camera is here";
     ConsoleLine true 2 "info" "camera";
     EndpointDatagram "E: sensor1 writes odom"] /\
  nodes
    (snd (@session UMap.append_order
            (fun _ => {| guid := mk_guid 0xBB; name := "camera" |})
            (fun _ => {| endpoint_guid := mk_guid 0xAA; msg_topic := "odom";
                         type := Writer |})
            [NodeDatagram "N: camera is here";
             ConsoleLine true 2 "info" "camera";
             EndpointDatagram "E: sensor1 writes odom"]
            sensor_state))
  = nodes
      (snd (@session UMap.append_order
              (fun _ => {| guid := mk_guid 0xBB; name := "camera" |})
              (fun _ => {| endpoint_guid := mk_guid 0xAA; msg_topic := "odom";
                           type := Writer |})
              (filter is_datagram
                 [NodeDatagram "N: camera is here";
                  ConsoleLine true 2 "info" "camera";
                  EndpointDatagram "E: sensor1 writes odom"])
              sensor_state)).
Proof.
  assert (Hwf : store_wf sensor_state).
  { split; unfold UMap.wf; simpl; (constructor; [intros [] | constructor]). }
  assert (Hq : Forall (fun e => quits e = false)
                 [NodeDatagram "N: camera is here";
                  ConsoleLine true 2 "info" "camera";
                  EndpointDatagram "E: sensor1 writes odom"])
    by (repeat constructor).
  assert (Hs : Forall line_scanned
                 [NodeDatagram "N: camera is here";
                  ConsoleLine true 2 "info" "camera";
                  EndpointDatagram "E: sensor1 writes odom"])
    by (repeat constructor).
  split; [exact Hwf|]. split; [exact Hs|]. split; [exact Hq|].
  apply (@console_history_irrelevant UMap.append_order
           (fun _ => {| guid := mk_guid 0xBB; name := "camera" |})
           (fun _ => {| endpoint_guid := mk_guid 0xAA; msg_topic := "odom";
                        type := Writer |})
           [NodeDatagram "N: camera is here";
            ConsoleLine true 2 "info" "camera";
            EndpointDatagram "E: sensor1 writes odom"]
           sensor_state Hwf Hs Hq).
Defined.

(** ** The order of an endpoint list *)

Lemma first_occurrences_in (l : list EndpointInfo) (x : EndpointInfo) :
  In x (first_occurrences l) <-> In x l.
Proof.
  unfold first_occurrences. now rewrite <- in_rev, nodup_In, <- in_rev.
Qed.

Lemma first_occurrences_snoc (l : list EndpointInfo) (x : EndpointInfo) :
  first_occurrences (l ++ [x])
  = if in_dec EndpointInfo_eq_dec x l
    then first_occurrences l
    else first_occurrences l ++ [x].
Proof.
  unfold first_occurrences. rewrite rev_app_distr. simpl.
  destruct (in_dec EndpointInfo_eq_dec x (rev l)) as [H|H];
    destruct (in_dec EndpointInfo_eq_dec x l) as [H'|H']; try reflexivity.
  - exfalso. apply H'. now apply in_rev.
  - exfalso. apply H. now apply in_rev in H'.
Qed.

Section EndpointOrder.

Context {order : UMap.HashOrder}.

(** The endpoint list of a prefix is the sequence of records announced for
    it, in the order of arrival, with every record kept at the place of its
    first announcement and its repetitions dropped. *)
Theorem endpoint_list_first_seen_order (msgs : list REDPMessage) (p : Z) :
  endpoints_of p (endpoint_announcements msgs initial_state)
  = first_occurrences
      (map record_of
         (filter (fun m => Z.eqb (get_prefix (endpoint_guid m)) p) msgs)).
Proof.
  induction msgs as [|m msgs IH] using rev_ind; [reflexivity|].
  rewrite endpoint_announcements_snoc.
  rewrite endpoints_of_upsert
    by (apply endpoint_announcements_wf; constructor).
  rewrite filter_app. cbn [filter]. rewrite (Z.eqb_sym p).
  destruct (Z.eqb (get_prefix (endpoint_guid m)) p).
  - rewrite map_app. cbn [map]. rewrite first_occurrences_snoc, IH.
    unfold upserted. fold (record_of m).
    set (seen := map record_of
                   (filter (fun m0 => Z.eqb (get_prefix (endpoint_guid m0)) p) msgs)).
    destruct (scan_exists (msg_topic m) (pub_of m) (first_occurrences seen)) eqn:E;
      destruct (in_dec EndpointInfo_eq_dec (record_of m) seen) as [H|H];
      try reflexivity.
    + exfalso. apply H. apply (proj1 (scan_exists_true_iff _ _ _)) in E.
      exact (proj1 (first_occurrences_in _ _) E).
    + exfalso. apply (proj2 (first_occurrences_in _ _)) in H.
      apply (proj2 (scan_exists_true_iff _ _ _)) in H. congruence.
  - rewrite app_nil_r. exact IH.
Qed.

End EndpointOrder.

(** ** get_local_ip *)

Lemma usable_spec (p : ifaddrs) :
  usable p = true <->
  exists a, ifa_addr p = Some a /\ sa_family a = AF_INET /\ ifa_name p <> "lo".
Proof.
  unfold usable. destruct (ifa_addr p) as [a|].
  - rewrite andb_true_iff, Z.eqb_eq, negb_true_iff, String.eqb_neq. split.
    + intros [H1 H2]. exists a. now repeat split.
    + intros [a' [[= <-] [H1 H2]]]. now split.
  - split; [discriminate | intros [a [H _]]; discriminate].
Qed.

(** The function returns the address of the first entry of the list that
    has an address of family [AF_INET] and is not named lo, and ignores the
    entries behind it; when the list has no such entry it returns
    0.0.0.0. *)
Theorem get_local_ip_first_usable (ifa : list ifaddrs) :
  (Forall (fun p => usable p = false) ifa /\ get_local_ip ifa = (0, 0, 0, 0)) \/
  (exists before p after a,
      ifa = before ++ p :: after /\
      Forall (fun q => usable q = false) before /\
      ifa_addr p = Some a /\ sa_family a = AF_INET /\ ifa_name p <> "lo" /\
      get_local_ip ifa = s_addr a).
Proof.
  unfold get_local_ip. induction ifa as [|p ifa IH].
  - left. split; [constructor | reflexivity].
  - destruct (usable p) eqn:Hu.
    + right. pose proof Hu as Hu'. apply usable_spec in Hu'.
      destruct Hu' as [a [Ha [Hf Hn]]].
      exists [], p, ifa, a. split; [reflexivity|]. split; [constructor|].
      split; [exact Ha|]. split; [exact Hf|]. split; [exact Hn|].
      cbn [get_local_ip_from]. unfold usable in Hu. rewrite Ha in *. now rewrite Hu.
    + assert (Hskip : get_local_ip_from (p :: ifa) (0, 0, 0, 0)
                      = get_local_ip_from ifa (0, 0, 0, 0)).
      { cbn [get_local_ip_from]. unfold usable in Hu.
        destruct (ifa_addr p); [now rewrite Hu | reflexivity]. }
      rewrite Hskip. destruct IH as [[Hall Hres]|[before [q [after [a H]]]]].
      * left. split; [now constructor | exact Hres].
      * right. destruct H as [-> [Hb H]]. exists (p :: before), q, after, a.
        split; [reflexivity|]. split; [now constructor | exact H].
Qed.
